(** * Differentiable quantum transforms: the notebooks' transforms, embedded

    A shallow embedding of the Python functions defined in the notebooks of
    the repository:

    - [fit_zne], [unitary_folding] and [zne]
      (3.3.3, differentiable error mitigation);
    - [convert_cnots] and [square_root_rx] (3.1, the transforms module);
    - [overrotate_rx], [subroutine] and the Qiskit pass [OverrotateRX.run]
      (3.2, comparison with other frameworks).

    Conventions of the embedding.

    - Numbers.  Python and NumPy floating-point numbers are idealised: a
      finite number is an exact rational ([Q]), and the three IEEE special
      values that NumPy produces on a division by zero are kept as
      constructors of [num].  Rounding of binary64 arithmetic and the sign of
      zero are not modelled.
    - Exceptions.  A Python exception is a value [Raise e] of [outcome].
    - Objects.  Operators, measurement processes and tapes are Python
      objects; a tape holds references to its operators and measurement
      processes.  The embedding keeps a heap of objects and a queue of
      references (the active recording context), and the transforms are
      programs of a state-and-error monad over them.
    - The library.  What the notebooks call in PennyLane, NumPy and Qiskit
      is modelled as far as the transforms depend on it: queuing
      ([qml.apply], the constructors of operators), the tape a recording
      context is made into, broadcasting in [math.multiply].  The adjoint of
      an operator, which the library does not define for every operator,
      and the square root of a number are parameters.  An
      operator is a gate: state preparations, which the library orders
      before the gates of a tape, are not modelled. *)

From Stdlib Require Import String ZArith QArith Qround Lia Lqa Bool Arith List.
From Stdlib Require Import Morphisms Setoid Permutation.
Import ListNotations.

(** ** Exceptions and outcomes *)

(** The exceptions of the embedding:
    - [IndexError]: a subscript out of range, as in [op.wires[1]];
    - [ValueError]: [stack] of nothing, shapes that do not broadcast,
      [int(nan)];
    - [OverflowError]: [int(inf)];
    - [AttributeError]: an attribute or method the object does not have;
    - [AdjointUndefinedError]: [op.adjoint()] on an operator the library
      defines no adjoint for;
    - [InvalidReference]: a reference outside the heap, which no Python
      program holds;
    - [DegenerateFitError]: the name the error taxonomy gives a singular
      fit; no function of the notebooks constructs it. *)
Inductive exn : Type :=
| IndexError
| ValueError
| OverflowError
| AttributeError
| AdjointUndefinedError
| InvalidReference
| DegenerateFitError.

Inductive outcome (A : Type) : Type :=
| Ok (a : A)
| Raise (e : exn).

Arguments Ok {A} a.
Arguments Raise {A} e.

Definition obind {A B} (m : outcome A) (f : A -> outcome B) : outcome B :=
  match m with
  | Ok a => f a
  | Raise e => Raise e
  end.

Definition raised {A} (m : outcome A) : bool :=
  match m with
  | Ok _ => false
  | Raise _ => true
  end.

Declare Scope outcome_scope.
Delimit Scope outcome_scope with outcome.
Notation "x <~ m ; k" := (obind m (fun x => k))
  (at level 61, m at next level, right associativity) : outcome_scope.

(** ** Numbers *)

Inductive num : Type :=
| Fin (q : Q)
| PInf
| NInf
| NaN.

Definition Qsign (q : Q) : comparison := (Qnum q ?= 0)%Z.

Definition num_opp (x : num) : num :=
  match x with
  | Fin q => Fin (- q)
  | PInf => NInf
  | NInf => PInf
  | NaN => NaN
  end.

Definition num_add (x y : num) : num :=
  match x, y with
  | NaN, _ | _, NaN => NaN
  | Fin p, Fin q => Fin (p + q)
  | PInf, NInf | NInf, PInf => NaN
  | PInf, _ | _, PInf => PInf
  | NInf, _ | _, NInf => NInf
  end.

Definition num_sub (x y : num) : num := num_add x (num_opp y).

(** The infinity of the sign [c], or [NaN] for the sign of zero. *)
Definition signed_inf (c : comparison) : num :=
  match c with
  | Gt => PInf
  | Lt => NInf
  | Eq => NaN
  end.

Definition num_sign (x : num) : option comparison :=
  match x with
  | Fin q => Some (Qsign q)
  | PInf => Some Gt
  | NInf => Some Lt
  | NaN => None
  end.

Definition sign_mul (a b : comparison) : comparison :=
  match a, b with
  | Eq, _ | _, Eq => Eq
  | Gt, c => c
  | Lt, c => CompOpp c
  end.

Definition num_mul (x y : num) : num :=
  match x, y with
  | Fin p, Fin q => Fin (p * q)
  | _, _ =>
      match num_sign x, num_sign y with
      | Some a, Some b => signed_inf (sign_mul a b)
      | _, _ => NaN
      end
  end.

(** NumPy's true division of two float scalars: a zero divisor gives an
    infinity, or [NaN] for [0 / 0], and a warning, never an exception. *)
Definition num_div (x y : num) : num :=
  match x, y with
  | NaN, _ | _, NaN => NaN
  | Fin p, Fin q =>
      if Qeq_bool q 0 then signed_inf (Qsign p) else Fin (p / q)
  | Fin _, _ => Fin 0
  | _, Fin q =>
      match num_sign x with
      | Some a =>
          signed_inf (sign_mul a (match Qsign q with Lt => Lt | _ => Gt end))
      | None => NaN
      end
  | _, _ => NaN
  end.

Definition num_sq (x : num) : num := num_mul x x.

Definition of_nat (n : nat) : num := Fin (inject_Z (Z.of_nat n)).

Declare Scope num_scope.
Delimit Scope num_scope with num.
Infix "+" := num_add : num_scope.
Infix "-" := num_sub : num_scope.
Infix "*" := num_mul : num_scope.
Infix "/" := num_div : num_scope.

(** Round half to even, the rounding of [numpy.round]. *)
Definition Qround_half_even (q : Q) : Z :=
  let f := Qfloor q in
  match ((q - inject_Z f) ?= (1 # 2))%Q with
  | Lt => f
  | Gt => (f + 1)%Z
  | Eq => if Z.even f then f else (f + 1)%Z
  end.

Definition num_round (x : num) : num :=
  match x with
  | Fin q => Fin (inject_Z (Qround_half_even q))
  | _ => x
  end.

(** Truncation towards zero. *)
Definition Qtruncate (q : Q) : Z := Z.quot (Qnum q) (Zpos (Qden q)).

(** Python's [int(x)] on a float: truncation, and an exception on the
    special values. *)
Definition to_int (x : num) : outcome Z :=
  match x with
  | Fin q => Ok (Qtruncate q)
  | NaN => Raise ValueError
  | PInf | NInf => Raise OverflowError
  end.

(** ** The part of [pennylane.math] that [fit_zne] uses, on one-dimensional
    arrays *)

Module math.

(** [math.stack] of a Python list of scalars; NumPy refuses to stack
    nothing. *)
Definition stack (xs : list num) : outcome (list num) :=
  match xs with
  | [] => Raise ValueError
  | _ => Ok xs
  end.

Definition sum (xs : list num) : num := fold_left num_add xs (Fin 0).

Fixpoint zip_with (f : num -> num -> num) (xs ys : list num) : list num :=
  match xs, ys with
  | x :: xs', y :: ys' => f x y :: zip_with f xs' ys'
  | _, _ => []
  end.

(** Element-wise product with NumPy's broadcasting: an array of one
    element is stretched to the length of the other; any other mismatch
    of lengths is refused. *)
Definition multiply (xs ys : list num) : outcome (list num) :=
  if Nat.eqb (length xs) (length ys) then Ok (zip_with num_mul xs ys)
  else
    match xs, ys with
    | [x], _ => Ok (map (fun y => num_mul x y) ys)
    | _, [y] => Ok (map (fun x => num_mul x y) xs)
    | _, _ => Raise ValueError
    end.

Definition round (x : num) : num := num_round x.

End math.

(** ** [fit_zne] *)

Definition fit_zne (scale_factors energies : list num) : outcome num :=
  (scale_factors <~ math.stack scale_factors;
   unwrapped_energies <~ math.stack energies;
   let N := of_nat (length energies) in
   let sum_scales := math.sum scale_factors in
   let sum_energies := math.sum unwrapped_energies in
   products <~ math.multiply scale_factors unwrapped_energies;
   let numerator := (N * math.sum products - sum_scales * sum_energies)%num in
   let denominator :=
     (N * math.sum (map num_sq scale_factors) - num_sq sum_scales)%num in
   let slope := (numerator / denominator)%num in
   let intercept := ((sum_energies - slope * sum_scales) / N)%num in
   Ok intercept)%outcome.

Definition fins (qs : list Q) : list num := map Fin qs.


(** ** Sums over exact rationals: what [fit_zne] computes on finite inputs *)

Definition Qsum (l : list Q) : Q := fold_left Qplus l 0.

Definition Qlen (l : list Q) : Q := inject_Z (Z.of_nat (length l)).

Fixpoint Qzip (f : Q -> Q -> Q) (xs ys : list Q) : list Q :=
  match xs, ys with
  | x :: xs', y :: ys' => f x y :: Qzip f xs' ys'
  | _, _ => []
  end.

Definition Qsq (x : Q) : Q := x * x.

(** The two sums the slope is made of, and the closed forms of the
    spec's ordinary-least-squares fit. *)
Definition numerator_of (s e : list Q) : Q :=
  Qlen e * Qsum (Qzip Qmult s e) - Qsum s * Qsum e.

Definition denominator_of (s e : list Q) : Q :=
  Qlen e * Qsum (map Qsq s) - Qsq (Qsum s).

Definition ols_slope (s e : list Q) : Q :=
  numerator_of s e / denominator_of s e.

Definition ols_intercept (s e : list Q) : Q :=
  (Qsum e - ols_slope s e * Qsum s) / Qlen e.

(** The data [e] lie on the line of slope [m] and intercept [b] over [s]. *)
Definition on_line (m b : Q) (s e : list Q) : Prop :=
  Forall2 (fun x y => y == m * x + b) s e.

Definition all_identical (s : list Q) : Prop :=
  forall x y, In x s -> In y s -> x == y.


(** ** Operators, measurement processes, tapes: the objects *)

(** A PennyLane operator as the transforms see it: [op.name], [op.wires]
    and [op.data]. *)
Record Operation : Type := mkOp {
  name : string;
  wires : list nat;
  data : list num
}.

Inductive ReturnType : Type :=
| Expectation
| Variance
| Sample
| Probability.

(** A measurement process: a return type and, when there is one, the
    observable. *)
Record MeasurementProcess : Type := mkMp {
  return_type : ReturnType;
  obs : option Operation
}.

(** A reference is the identity of a Python object: its address. *)
Definition ref : Type := nat.

Inductive object : Type :=
| Operator (o : Operation)
| Measurement (m : MeasurementProcess)
| Tape (operations measurements : list ref).

(** [obj.name]: the name of an operator; a measurement process carries the
    name of the identity observable; a tape has none. *)
Definition object_name (x : object) : option string :=
  match x with
  | Operator o => Some (name o)
  | Measurement _ => Some "Identity"%string
  | Tape _ _ => None
  end.

Definition object_wires (x : object) : option (list nat) :=
  match x with
  | Operator o => Some (wires o)
  | Measurement m =>
      Some (match obs m with Some o => wires o | None => [] end)
  | Tape _ _ => None
  end.

Definition object_data (x : object) : option (list num) :=
  match x with
  | Operator o => Some (data o)
  | Measurement _ => Some []
  | Tape _ _ => None
  end.

(** ** The interpreter state: a heap of objects and the active queue *)

Record state : Type := mkState {
  heap : list object;
  queue : list ref
}.

Definition M (A : Type) : Type := state -> outcome (A * state).

Definition ret {A} (a : A) : M A := fun st => Ok (a, st).

Definition bind {A B} (m : M A) (f : A -> M B) : M B :=
  fun st =>
    match m st with
    | Ok (a, st') => f a st'
    | Raise e => Raise e
    end.

Definition raise {A} (e : exn) : M A := fun _ => Raise e.

Definition lift {A} (o : outcome A) : M A :=
  fun st =>
    match o with
    | Ok a => Ok (a, st)
    | Raise e => Raise e
    end.

Declare Scope M_scope.
Delimit Scope M_scope with M.
Bind Scope M_scope with M.
Notation "x <- m ;; k" := (bind m (fun x => k))
  (at level 61, m at next level, right associativity) : M_scope.
Notation "m ;; k" := (bind m (fun _ => k))
  (at level 61, right associativity) : M_scope.

Local Open Scope M_scope.

(** Reading an object through its reference. *)
Definition deref (r : ref) : M object :=
  fun st =>
    match nth_error (heap st) r with
    | Some x => Ok (x, st)
    | None => Raise InvalidReference
    end.

(** Constructing an object: it gets the next free address. *)
Definition alloc (x : object) : M ref :=
  fun st => Ok (length (heap st), mkState (heap st ++ [x]) (queue st)).

(** [context.append(obj)] on the active queue. *)
Definition append (r : ref) : M unit :=
  fun st => Ok (tt, mkState (heap st) (queue st ++ [r])).

(** [obj in context.queue]: membership by identity. *)
Definition queued (r : ref) : M bool :=
  fun st => Ok (existsb (Nat.eqb r) (queue st), st).

Definition attribute {A} (f : object -> option A) (r : ref) : M A :=
  x <- deref r;;
  match f x with
  | Some a => ret a
  | None => raise AttributeError
  end.

Definition subscript {A} (l : list A) (i : nat) : M A :=
  match nth_error l i with
  | Some a => ret a
  | None => raise IndexError
  end.

(** [op.name], [op.wires[i]], [op.data[i]]. *)
Definition get_name (op : ref) : M string := attribute object_name op.

Definition get_wire (op : ref) (i : nat) : M nat :=
  ws <- attribute object_wires op;; subscript ws i.

Definition get_data (op : ref) (i : nat) : M num :=
  ds <- attribute object_data op;; subscript ds i.

(** [tape.operations], [tape.measurements], and the objects [for op in tape]
    goes through: the operations, then the measurements. *)
Definition get_operations (tape : ref) : M (list ref) :=
  attribute (fun x => match x with Tape ops _ => Some ops | _ => None end) tape.

Definition get_measurements (tape : ref) : M (list ref) :=
  attribute (fun x => match x with Tape _ ms => Some ms | _ => None end) tape.

Definition iter_tape (tape : ref) : M (list ref) :=
  ops <- get_operations tape;;
  ms <- get_measurements tape;;
  ret (ops ++ ms).

(** [qml.apply(op)]: a queue holds an object once, so an object that is
    already queued is copied first; the (possibly new) object is appended
    to the active queue. *)
Definition apply (op : ref) : M ref :=
  present <- queued op;;
  op' <- (if present : bool then x <- deref op;; alloc x else ret op);;
  append op';;
  ret op'.

(** Constructing an operator inside a recording context queues it. *)
Definition new_operator (o : Operation) : M ref :=
  r <- alloc (Operator o);;
  append r;;
  ret r.

Definition Hadamard (w : nat) : M ref := new_operator (mkOp "Hadamard" [w] []).
Definition CZ (ws : list nat) : M ref := new_operator (mkOp "CZ" ws []).
Definition RX (phi : num) (w : nat) : M ref :=
  new_operator (mkOp "RX" [w] [phi]).

(** A call whose result the source drops. *)
Definition discard {A} (m : M A) : M unit := m;; ret tt.

Fixpoint for_each {A} (xs : list A) (body : A -> M unit) : M unit :=
  match xs with
  | [] => ret tt
  | x :: xs' => body x;; for_each xs' body
  end.

(** [for _ in range(n)]. *)
Fixpoint for_range (n : nat) (body : M unit) : M unit :=
  match n with
  | O => ret tt
  | S n' => body;; for_range n' body
  end.

Fixpoint map_M {A B} (f : A -> M B) (xs : list A) : M (list B) :=
  match xs with
  | [] => ret []
  | x :: xs' => y <- f x;; ys <- map_M f xs';; ret (y :: ys)
  end.

(** The tape a queue is made into when the recording context closes: the
    queued operators, and the queued measurement processes, each in queue
    order. *)
Definition is_operator (h : list object) (r : ref) : bool :=
  match nth_error h r with
  | Some (Operator _) => true
  | _ => false
  end.

Definition is_measurement (h : list object) (r : ref) : bool :=
  match nth_error h r with
  | Some (Measurement _) => true
  | _ => false
  end.

(** [qml.single_tape_transform], and the [tape_fn] of a [qfunc_transform]:
    the body runs on the input tape inside a new, empty recording context,
    and the new tape is built from what was queued; the surrounding context
    is left as it was.  (The new tape object is put on the heap when the
    context closes.  The transforms queue measurements after all operators,
    so the order the library asks of a queue is not checked.) *)
Definition single_tape_transform (transform_fn : ref -> M unit) (tape : ref)
  : M ref :=
  fun st =>
    match transform_fn tape (mkState (heap st) []) with
    | Ok (_, st') =>
        let h := heap st' in
        let q := queue st' in
        alloc (Tape (filter (is_operator h) q) (filter (is_measurement h) q))
              (mkState h (queue st))
    | Raise e => Raise e
    end.

(** ** The transforms of the notebooks *)

Section Transforms.

(** [op.adjoint()] of the library: the adjoint of an operator, as a new
    operator; [None] for an operator the library defines no adjoint for,
    on which the method raises [AdjointUndefinedError]. *)
Variable adjoint : Operation -> option Operation.

Definition op_adjoint (op : ref) : M ref :=
  x <- deref op;;
  match x with
  | Operator o =>
      match adjoint o with
      | Some o' => new_operator o'
      | None => raise AdjointUndefinedError
      end
  | _ => raise AttributeError
  end.

Definition unitary_folding (tape : ref) (scale_factor : num) : M unit :=
  ops <- get_operations tape;;
  for_each ops (fun op => discard (apply op));;
  let num_folds := math.round ((scale_factor - Fin 1) / Fin 2)%num in
  n <- lift (to_int num_folds);;
  for_range (Z.to_nat n)
    (ops <- get_operations tape;;
     for_each (rev ops) (fun op => discard (op_adjoint op));;
     ops <- get_operations tape;;
     for_each ops (fun op => discard (apply op)));;
  ms <- get_measurements tape;;
  for_each ms (fun m => discard (apply m)).

End Transforms.

(** The batch transform: the tapes, and the function that post-processes
    the results of their execution ([partial(fit_zne, scale_factors)]).
    Recording is stopped around the list comprehension; each tape transform
    records into a context of its own. *)
Definition zne (tape : ref) (mitigation_transform : ref -> num -> M unit)
           (scale_factors : list num)
  : M (list ref * (list num -> outcome num)) :=
  tapes <- map_M (fun scale =>
                    single_tape_transform
                      (fun t => mitigation_transform t scale) tape)
                 scale_factors;;
  let processing_fn := fit_zne scale_factors in
  ret (tapes, processing_fn).

Definition convert_cnots (tape : ref) : M unit :=
  objs <- iter_tape tape;;
  for_each objs (fun op =>
    nm <- get_name op;;
    if String.eqb nm "CNOT" then
      w1 <- get_wire op 1;;
      Hadamard w1;;
      w0 <- get_wire op 0;;
      w1 <- get_wire op 1;;
      CZ [w0; w1];;
      w1 <- get_wire op 1;;
      discard (Hadamard w1)
    else
      discard (apply op)).

Definition overrotate_rx (tape : ref) (epsilon : num) : M unit :=
  objs <- iter_tape tape;;
  for_each objs (fun op =>
    nm <- get_name op;;
    if String.eqb nm "RX" then
      d <- get_data op 0;;
      w <- get_wire op 0;;
      discard (RX (d + epsilon)%num w)
    else
      discard (apply op)).

Section SquareRoot.

(** [math.sqrt] of the library. *)
Variable sqrt : num -> num.

Definition square_root_rx (tape : ref) : M unit :=
  objs <- iter_tape tape;;
  for_each objs (fun op =>
    nm <- get_name op;;
    if String.eqb nm "RX" then
      d <- get_data op 0;;
      w <- get_wire op 0;;
      discard (RX (sqrt d) w)
    else
      discard (apply op)).

End SquareRoot.

(** ** Tapes as values *)

Record tape_value : Type := mkTapeValue {
  tv_operations : list Operation;
  tv_measurements : list MeasurementProcess
}.

Fixpoint traverse {A B} (f : A -> option B) (xs : list A) : option (list B) :=
  match xs with
  | [] => Some []
  | x :: xs' =>
      match f x, traverse f xs' with
      | Some y, Some ys => Some (y :: ys)
      | _, _ => None
      end
  end.

Definition operator_at (h : list object) (r : ref) : option Operation :=
  match nth_error h r with
  | Some (Operator o) => Some o
  | _ => None
  end.

Definition measurement_at (h : list object) (r : ref)
  : option MeasurementProcess :=
  match nth_error h r with
  | Some (Measurement m) => Some m
  | _ => None
  end.

(** The operations and measurements a tape reference stands for in a heap;
    [None] when the reference is not a tape of operators followed by
    measurement processes. *)
Definition read_tape (h : list object) (t : ref) : option tape_value :=
  match nth_error h t with
  | Some (Tape ops ms) =>
      match traverse (operator_at h) ops, traverse (measurement_at h) ms with
      | Some os, Some mps => Some (mkTapeValue os mps)
      | _, _ => None
      end
  | _ => None
  end.

(** The operations of a circuit folded [k] times, [adjoints] being the
    adjoints of its operations, in the order of the operations. *)
Fixpoint folded (adjoints : list Operation) (k : nat)
         (ops : list Operation) : list Operation :=
  match k with
  | O => []
  | S k' => rev adjoints ++ ops ++ folded adjoints k' ops
  end.

(** ** Heaps and what a program does to them *)

(** [extends h h']: every object of [h] is in [h'], at its address and as
    it was; [h'] may hold new objects after them. *)
Definition extends (h h' : list object) : Prop := exists l, h' = h ++ l.

Definition points_to (h : list object) (r : ref) (x : object) : Prop :=
  nth_error h r = Some x.

(** [reads h0 m a]: on every heap that extends [h0] the program [m] returns
    [a] and changes nothing. *)
Definition reads {A} (h0 : list object) (m : M A) (a : A) : Prop :=
  forall st, extends h0 (heap st) -> m st = Ok (a, st).

(** [emits h0 m vs]: on every heap that extends [h0] the program [m]
    returns, the heap it leaves extends the one it found, and the queue has
    grown by references to the objects [vs], in this order. *)
Definition emits {A} (h0 : list object) (m : M A) (vs : list object) : Prop :=
  forall st, extends h0 (heap st) ->
    exists a st',
      m st = Ok (a, st') /\
      extends (heap st) (heap st') /\
      exists rs, queue st' = queue st ++ rs /\
                 Forall2 (points_to (heap st')) rs vs.

(** [grows m]: every call of [m] that returns leaves a heap that extends
    the one it found: no object was written. *)
Definition grows {A} (m : M A) : Prop :=
  forall st a st', m st = Ok (a, st') -> extends (heap st) (heap st').

(** The operators, and the measurement processes, among some objects. *)
Definition operators_of (vs : list object) : list Operation :=
  flat_map (fun x => match x with Operator o => [o] | _ => [] end) vs.

Definition measurements_of (vs : list object) : list MeasurementProcess :=
  flat_map (fun x => match x with Measurement m => [m] | _ => [] end) vs.

(** The number of wires and of parameters the library fixes for the gates
    of the notebooks' circuits ([num_wires], [num_params]); an operator of
    such a name cannot be constructed with another number. *)
Definition gate_signature (nm : string) : option (nat * nat) :=
  if String.eqb nm "CNOT" then Some (2, 0)%nat
  else if String.eqb nm "CZ" then Some (2, 0)%nat
  else if String.eqb nm "Hadamard" then Some (1, 0)%nat
  else if String.eqb nm "S" then Some (1, 0)%nat
  else if String.eqb nm "RX" then Some (1, 1)%nat
  else if String.eqb nm "RY" then Some (1, 1)%nat
  else if String.eqb nm "RZ" then Some (1, 1)%nat
  else if String.eqb nm "Rot" then Some (1, 3)%nat
  else None.

Definition well_formed (o : Operation) : bool :=
  match gate_signature (name o) with
  | Some (w, p) => Nat.eqb (length (wires o)) w && Nat.eqb (length (data o)) p
  | None => true
  end.

(** [int(math.round((scale_factor - 1.0) / 2.0))] as a number of loop
    rounds: [range] of a negative number is empty. *)
Definition fold_count (scale_factor : Q) : nat :=
  Z.to_nat (Qround_half_even ((scale_factor - 1) / 2)).

(** The tape [unitary_folding] returns as a tape transform, as a value:
    the operations, the [k] folds after them, and the measurements. *)
Definition folded_tape (adjoints : list Operation) (k : nat)
           (v : tape_value) : tape_value :=
  mkTapeValue (tv_operations v ++ folded adjoints k (tv_operations v))
              (tv_measurements v).

(** What [convert_cnots] queues for one operator (the second case of the
    [match] is not reached on a [CNOT] of two wires). *)
Definition cnot_to_cz (o : Operation) : list Operation :=
  if String.eqb (name o) "CNOT" then
    match wires o with
    | w0 :: w1 :: _ =>
        [mkOp "Hadamard" [w1] []; mkOp "CZ" [w0; w1] [];
         mkOp "Hadamard" [w1] []]
    | _ => []
    end
  else [o].

(** What [overrotate_rx] and [square_root_rx] queue for one operator, [f]
    being what they do to the angle (the second case of the [match] is not
    reached on an [RX] of one wire and one parameter). *)
Definition rx_rewritten (f : num -> num) (o : Operation) : list Operation :=
  if String.eqb (name o) "RX" then
    match data o, wires o with
    | d :: _, w :: _ => [mkOp "RX" [w] [f d]]
    | _, _ => []
    end
  else [o].

Definition overrotated (epsilon : num) : Operation -> list Operation :=
  rx_rewritten (fun d => (d + epsilon)%num).

(** What the two rewriting transforms need of an operator to subscript its
    wires and parameters without an [IndexError]. *)
Definition cnot_ready (o : Operation) : Prop :=
  name o = "CNOT"%string -> (2 <= length (wires o))%nat.

Definition rx_ready (o : Operation) : Prop :=
  name o = "RX"%string ->
  (1 <= length (wires o))%nat /\ (1 <= length (data o))%nat.

(** ** The pipeline of single-tape transforms *)

(** A single-tape transform that is not a batch transform: from a tape to
    a tape. *)
Definition transform : Type := ref -> M ref.

(** Modelled from the spec: the driver that applies a pipeline
    [[t1, ..., tk]] to a tape.  The notebooks only build the list and hand
    it to the library ([qml.compile(pipeline=pipeline)]); the driver itself
    is not among the sources.  Section 4.4: composition is strictly
    sequential, the output of transform [i] feeds transform [i+1]. *)
Fixpoint pipeline (transforms : list transform) (tape : ref) : M ref :=
  match transforms with
  | [] => ret tape
  | t :: rest => tape' <- t tape;; pipeline rest tape'
  end.

(** The nested application [tk(...t2(t1(tape))...)], the transforms given
    from the outermost, [tk], to the innermost, [t1]. *)
Fixpoint nested (outermost_first : list transform) (tape : ref) : M ref :=
  match outermost_first with
  | [] => ret tape
  | tk :: inner => tape' <- nested inner tape;; tk tape'
  end.

(** ** The Qiskit pass of the comparison notebook *)

Module Qiskit.

(** The operation of a DAG node: [node.name], [node.op.params] and the
    qubits it acts on. *)
Record Instruction : Type := mkInstruction {
  name : string;
  params : list num;
  qargs : list nat
}.

(** The instruction objects, by address; a DAG is seen through
    [dag.op_nodes()], the references to the instructions of its nodes. *)
Definition store : Type := list Instruction.
Definition DAGCircuit : Type := list ref.

Fixpoint assign {A} (l : list A) (i : nat) (a : A) : list A :=
  match l, i with
  | [], _ => []
  | _ :: l', O => a :: l'
  | x :: l', S i' => x :: assign l' i' a
  end.

Definition read_dag (st : store) (dag : DAGCircuit)
  : list (option Instruction) :=
  map (nth_error st) dag.

End Qiskit.

Module OverrotateRX.

Import Qiskit.

(** [node.op.params[0] += self.angle], on the instruction object itself. *)
Definition add_to_first_param (angle : num) (node : ref) (st : store)
  : outcome store :=
  match nth_error st node with
  | None => Raise InvalidReference
  | Some i =>
      match params i with
      | [] => Raise IndexError
      | p :: ps =>
          Ok (assign st node
                     (mkInstruction (name i) ((p + angle)%num :: ps)
                                    (qargs i)))
      end
  end.

Fixpoint visit (angle : num) (nodes : list ref) (st : store)
  : outcome store :=
  match nodes with
  | [] => Ok st
  | node :: rest =>
      match nth_error st node with
      | None => Raise InvalidReference
      | Some i =>
          if String.eqb (name i) "rx" then
            (st' <~ add_to_first_param angle node st;
             visit angle rest st')%outcome
          else visit angle rest st
      end
  end.

(** [run(self, dag)]: the loop over [dag.op_nodes()], and [return dag]:
    the DAG that came in. *)
Definition run (angle : num) (dag : DAGCircuit) (st : store)
  : outcome (DAGCircuit * store) :=
  (st' <~ visit angle dag st; Ok (dag, st'))%outcome.

End OverrotateRX.

(** ** A circuit to run the transforms on *)

Module Example.

(** The adjoints the library gives the gates of the notebooks' circuits:
    a rotation ([RX], [RY], [RZ], [SingleExcitation]) by the opposite
    angle; [Rot] by the opposite angles in reverse order; the Pauli gates,
    [Hadamard], [CNOT] and [CZ] are their own adjoints.  Any other
    operator has no adjoint here, as [S] and [T] have none in the
    library. *)
Definition adjoint (o : Operation) : option Operation :=
  if (String.eqb (name o) "RX" || String.eqb (name o) "RY"
      || String.eqb (name o) "RZ")%bool
  then Some (mkOp (name o) (wires o) (map num_opp (data o)))
  else if String.eqb (name o) "Rot"
  then Some (mkOp (name o) (wires o) (rev (map num_opp (data o))))
  else if String.eqb (name o) "SingleExcitation"
  then Some (mkOp (name o) (wires o) (map num_opp (data o)))
  else if (String.eqb (name o) "PauliX" || String.eqb (name o) "PauliY"
           || String.eqb (name o) "PauliZ" || String.eqb (name o) "Hadamard"
           || String.eqb (name o) "CNOT" || String.eqb (name o) "CZ")%bool
  then Some o
  else None.

Definition rx : Operation := mkOp "RX" [0%nat] [Fin (3 # 10)].
Definition cnot : Operation := mkOp "CNOT" [0%nat; 1%nat] [].
Definition expval : MeasurementProcess :=
  mkMp Expectation (Some (mkOp "PauliZ" [0%nat] [])).

(** The tape [[RX(0.3), CNOT]] with one measurement, at address 3. *)
Definition circuit : state :=
  mkState [Operator rx; Operator cnot; Measurement expval;
           Tape [0%nat; 1%nat] [2%nat]] [].

Definition tape : ref := 3%nat.

Definition value : tape_value := mkTapeValue [rx; cnot] [expval].

(** The adjoints of its two operations. *)
Definition adjoints : list Operation :=
  [mkOp "RX" [0%nat] [Fin (- (3 # 10))]; cnot].

(** A tape with a gate that has no adjoint: [[S]] on wire 0 with one
    measurement, at address 2. *)
Definition phase_value : tape_value :=
  mkTapeValue [mkOp "S" [0%nat] []] [expval].

Definition phase_circuit : state :=
  mkState [Operator (mkOp "S" [0%nat] []); Measurement expval;
           Tape [0%nat] [1%nat]] [].

(** The subroutine of the comparison notebook as a Qiskit circuit:
    [rx(0.3)], [h], [ry(0.1)] on one qubit. *)
Definition subroutine : Qiskit.store :=
  [Qiskit.mkInstruction "rx" [Fin (3 # 10)] [0%nat];
   Qiskit.mkInstruction "h" [] [0%nat];
   Qiskit.mkInstruction "ry" [Fin (1 # 10)] [0%nat]].

Definition dag : Qiskit.DAGCircuit := [0%nat; 1%nat; 2%nat].

(** A tape without [CNOT] and without [RX]: [[Hadamard, RY(0.1)]] with
    one measurement, at address 3. *)
Definition plain_value : tape_value :=
  mkTapeValue [mkOp "Hadamard" [0%nat] []; mkOp "RY" [0%nat] [Fin (1 # 10)]]
              [expval].

Definition plain_circuit : state :=
  mkState [Operator (mkOp "Hadamard" [0%nat] []);
           Operator (mkOp "RY" [0%nat] [Fin (1 # 10)]);
           Measurement expval;
           Tape [0%nat; 1%nat] [2%nat]] [].

(** The tape of the transforms notebook: [CNOT(0,1)], [RX(0.1)],
    [CNOT(1,2)] and an expectation value, at address 4. *)
Definition cnots_circuit : state :=
  mkState [Operator (mkOp "CNOT" [0%nat; 1%nat] []);
           Operator (mkOp "RX" [0%nat] [Fin (1 # 10)]);
           Operator (mkOp "CNOT" [1%nat; 2%nat] []);
           Measurement expval;
           Tape [0%nat; 1%nat; 2%nat] [3%nat]] [].

End Example.

(** ** More of the notebooks: quantum functions and their tapes *)

Definition RY (phi : num) (w : nat) : M ref :=
  new_operator (mkOp "RY" [w] [phi]).

(** [subroutine(theta)] of the comparison notebook, the PennyLane one:
    [RX(theta)], [Hadamard] and [RY(0.1)] on wire 0. *)
Definition subroutine (theta : num) : M unit :=
  RX theta 0;;
  Hadamard 0;;
  discard (RY (Fin (1 # 10)) 0).

(** Recording a quantum function: it runs inside a new, empty recording
    context, and the tape is built from what it queued (the first step of a
    [qfunc_transform] applied to a quantum function). *)
Definition make_tape (fn : M unit) : M ref :=
  fun st =>
    match fn (mkState (heap st) []) with
    | Ok (_, st') =>
        let h := heap st' in
        let q := queue st' in
        alloc (Tape (filter (is_operator h) q) (filter (is_measurement h) q))
              (mkState h (queue st))
    | Raise e => Raise e
    end.

(** ** Circuits as products *)

Section Denotation.

(** What a circuit stands for, in a monoid: the product of what its
    operations stand for, in the order of the tape. *)
Variable G : Type.
Variable one : G.
Variable dot : G -> G -> G.
Variable interp : Operation -> G.

Definition denote (ops : list Operation) : G :=
  fold_right (fun o g => dot (interp o) g) one ops.

End Denotation.

(** The scale factor [2 k + 1]. *)
Definition odd_scale (k : nat) : Q := inject_Z (2 * Z.of_nat k + 1).

(** The number of operations of a tape, as an energy would depend on it. *)
Definition gate_count (h : list object) (t : ref) : option nat :=
  match read_tape h t with
  | Some v => Some (length (tv_operations v))
  | None => None
  end.

Definition is_named (nm : string) (o : Operation) : bool :=
  String.eqb (name o) nm.

(** ** The instructions the Qiskit pass leaves *)

(** [node.op.params[0] += angle] on an instruction named [rx], as a value
    (an [rx] without parameters is not reached: the pass raises). *)
Definition rx_overrotated (angle : num) (i : Qiskit.Instruction)
  : Qiskit.Instruction :=
  if String.eqb (Qiskit.name i) "rx" then
    match Qiskit.params i with
    | p :: ps =>
        Qiskit.mkInstruction (Qiskit.name i) ((p + angle)%num :: ps)
                             (Qiskit.qargs i)
    | [] => i
    end
  else i.

(** Every node of the DAG refers to an instruction, and an [rx] has a
    parameter. *)
Definition dag_ready (st : Qiskit.store) (dag : Qiskit.DAGCircuit) : Prop :=
  Forall (fun node =>
            exists i, nth_error st node = Some i /\
                      (Qiskit.name i = "rx"%string -> Qiskit.params i <> []))
         dag.

(** The pairs [(scale factor, energy)] of a fit. *)
Definition scales_of (ps : list (Q * Q)) : list Q := map fst ps.
Definition energies_of (ps : list (Q * Q)) : list Q := map snd ps.

(** A product to try circuits on: the integers under addition, a rotation
    standing for the numerator of its angle and every other gate for
    zero. *)
Definition angle_numerator (o : Operation) : Z :=
  if (String.eqb (name o) "RX" || String.eqb (name o) "RY"
      || String.eqb (name o) "RZ")%bool
  then match data o with
       | Fin q :: _ => Qnum q
       | _ => 0%Z
       end
  else 0%Z.

(** Another one: the natural numbers under addition, [CNOT] and [CZ]
    standing for one and every other gate for zero (the number of
    two-qubit gates). *)
Definition two_qubit_gates (o : Operation) : nat :=
  if (String.eqb (name o) "CNOT" || String.eqb (name o) "CZ")%bool
  then 1%nat else 0%nat.

(** * Properties *)

(** ** Arithmetic of the sums *)

Section Sums.

Local Open Scope Q_scope.

Lemma fold_left_Qplus_acc (l : list Q) (a : Q) :
  fold_left Qplus l a == a + Qsum l.
Proof.
  unfold Qsum. revert a.
  induction l as [|x l IH]; intros a; simpl.
  - ring.
  - rewrite (IH (a + x)), (IH (0 + x)). ring.
Qed.

#[global] Instance Qsq_comp : Proper (Qeq ==> Qeq) Qsq.
Proof. intros x y E. unfold Qsq. now rewrite E. Qed.

Lemma Qsum_nil : Qsum [] == 0.
Proof. reflexivity. Qed.

Lemma Qsum_cons (x : Q) (l : list Q) : Qsum (x :: l) == x + Qsum l.
Proof.
  unfold Qsum at 1. simpl. rewrite fold_left_Qplus_acc. ring.
Qed.

Lemma Qlen_cons (x : Q) (l : list Q) : Qlen (x :: l) == 1 + Qlen l.
Proof.
  unfold Qlen. cbn [length]. rewrite Nat2Z.inj_succ, <- Z.add_1_l.
  rewrite inject_Z_plus. reflexivity.
Qed.

Lemma Qlen_nonneg (l : list Q) : 0 <= Qlen l.
Proof.
  unfold Qlen. change 0 with (inject_Z 0). rewrite <- Zle_Qle. lia.
Qed.

Lemma Qlen_pos (l : list Q) : l <> [] -> 0 < Qlen l.
Proof.
  destruct l as [|x l]; [congruence|]. intros _.
  rewrite Qlen_cons. pose proof (Qlen_nonneg l). lra.
Qed.

Lemma Qlen_eq (l l' : list Q) : length l = length l' -> Qlen l = Qlen l'.
Proof. unfold Qlen. intros ->. reflexivity. Qed.

(** Sum of the squares of [a * x - c] over the list. *)
Lemma Qsum_sq_shift (a c : Q) (l : list Q) :
  Qsum (map (fun x => Qsq (a * x - c)) l)
  == a * a * Qsum (map Qsq l) - 2 * a * c * Qsum l + Qlen l * (c * c).
Proof.
  induction l as [|x l IH].
  - unfold Qlen. simpl. rewrite !Qsum_nil. ring.
  - cbn [map]. rewrite !Qsum_cons, Qlen_cons, IH. unfold Qsq. ring.
Qed.

Lemma Qsum_sq_nonneg (f : Q -> Q) (l : list Q) :
  0 <= Qsum (map (fun x => Qsq (f x)) l).
Proof.
  induction l as [|x l IH].
  - simpl. rewrite Qsum_nil. lra.
  - cbn [map]. rewrite Qsum_cons.
    assert (0 <= Qsq (f x)) by (unfold Qsq; nra). lra.
Qed.

Lemma Qsum_sq_zero (f : Q -> Q) (l : list Q) :
  Qsum (map (fun x => Qsq (f x)) l) == 0 ->
  forall x, In x l -> f x == 0.
Proof.
  induction l as [|y l IH]; intros Hz x Hin; [destruct Hin|].
  cbn [map] in Hz. rewrite Qsum_cons in Hz.
  pose proof (Qsum_sq_nonneg f l) as Hl.
  assert (Hy : 0 <= Qsq (f y)) by (unfold Qsq; nra).
  destruct Hin as [<- | Hin].
  - assert (Hsq : Qsq (f y) == 0) by lra.
    unfold Qsq in Hsq. apply Qmult_integral in Hsq. tauto.
  - apply IH; [lra | assumption].
Qed.

End Sums.

(** ** [fit_zne] on finite numbers *)

Section FitZne.

Local Open Scope Q_scope.

Lemma fold_left_num_add_fins (l : list Q) (a : Q) :
  fold_left num_add (fins l) (Fin a) = Fin (fold_left Qplus l a).
Proof.
  revert a. induction l as [|x l IH]; intros a; simpl; [reflexivity|].
  apply IH.
Qed.

Lemma sum_fins (l : list Q) : math.sum (fins l) = Fin (Qsum l).
Proof. apply fold_left_num_add_fins. Qed.

Lemma map_sq_fins (l : list Q) : map num_sq (fins l) = fins (map Qsq l).
Proof.
  unfold fins. rewrite !map_map. reflexivity.
Qed.

Lemma zip_with_fins (s e : list Q) :
  math.zip_with num_mul (fins s) (fins e) = fins (Qzip Qmult s e).
Proof.
  revert e. induction s as [|x s IH]; intros [|y e]; simpl; try reflexivity.
  f_equal. apply IH.
Qed.

Lemma length_fins (l : list Q) : length (fins l) = length l.
Proof. apply length_map. Qed.

Lemma multiply_fins (s e : list Q) :
  length s = length e ->
  math.multiply (fins s) (fins e) = Ok (fins (Qzip Qmult s e)).
Proof.
  intros Hlen. unfold math.multiply.
  rewrite !length_fins, Hlen, Nat.eqb_refl, zip_with_fins. reflexivity.
Qed.

Lemma stack_fins (l : list Q) : l <> [] -> math.stack (fins l) = Ok (fins l).
Proof. destruct l; [congruence | reflexivity]. Qed.

(** The value [fit_zne] returns on finite inputs of one length, before
    the two divisions are looked into. *)
Lemma fit_zne_fins (s e : list Q) :
  s <> [] -> length e = length s ->
  fit_zne (fins s) (fins e)
  = Ok ((Fin (Qsum e)
         - Fin (numerator_of s e) / Fin (denominator_of s e) * Fin (Qsum s))
        / Fin (Qlen e))%num.
Proof.
  intros Hs Hlen. unfold fit_zne.
  assert (He : e <> []) by (destruct e, s; simpl in *; congruence).
  rewrite (stack_fins s Hs), (stack_fins e He). cbn [obind].
  rewrite (multiply_fins _ _ (eq_sym Hlen)). cbn [obind].
  rewrite !sum_fins, map_sq_fins, sum_fins, length_fins.
  reflexivity.
Qed.

Lemma Qeq_bool_false (q : Q) : ~ q == 0 -> Qeq_bool q 0 = false.
Proof.
  intros Hq. destruct (Qeq_bool q 0) eqn:E; [|reflexivity].
  apply Qeq_bool_eq in E. contradiction.
Qed.

Lemma Qeq_bool_true (q : Q) : q == 0 -> Qeq_bool q 0 = true.
Proof. apply Qeq_eq_bool. Qed.

Lemma Qsign_zero (q : Q) : q == 0 -> Qsign q = Eq.
Proof.
  unfold Qsign, Qeq. simpl. intros H. rewrite Z.mul_1_r in H. now rewrite H.
Qed.

Lemma fit_zne_regular (s e : list Q) :
  s <> [] -> length e = length s -> ~ denominator_of s e == 0 ->
  fit_zne (fins s) (fins e) = Ok (Fin (ols_intercept s e)).
Proof.
  intros Hs Hlen Hden. rewrite (fit_zne_fins s e Hs Hlen).
  assert (He : e <> []) by (destruct e, s; simpl in *; congruence).
  pose proof (Qlen_pos e He) as HN.
  unfold num_div at 2. rewrite (Qeq_bool_false _ Hden).
  cbn [num_mul num_sub num_opp num_add]. unfold num_div.
  rewrite Qeq_bool_false by lra. reflexivity.
Qed.

Lemma fit_zne_singular (s e : list Q) :
  s <> [] -> length e = length s ->
  denominator_of s e == 0 -> numerator_of s e == 0 ->
  fit_zne (fins s) (fins e) = Ok NaN.
Proof.
  intros Hs Hlen Hden Hnum. rewrite (fit_zne_fins s e Hs Hlen).
  unfold num_div at 2.
  rewrite (Qeq_bool_true _ Hden), (Qsign_zero _ Hnum). reflexivity.
Qed.

End FitZne.

(** ** When the denominator vanishes *)

Section Denominator.

Local Open Scope Q_scope.

Lemma all_identical_const (s : list Q) :
  all_identical s -> forall c, In c s -> Forall (fun x => x == c) s.
Proof.
  intros Hall c Hc. apply Forall_forall. intros x Hx. now apply Hall.
Qed.

Lemma Qsum_const (c : Q) (s : list Q) :
  Forall (fun x => x == c) s -> Qsum s == Qlen s * c.
Proof.
  induction 1 as [|x s Hx _ IH].
  - unfold Qlen. simpl. rewrite Qsum_nil. ring.
  - rewrite Qsum_cons, Qlen_cons, IH, Hx. ring.
Qed.

Lemma Qsum_sq_const (c : Q) (s : list Q) :
  Forall (fun x => x == c) s -> Qsum (map Qsq s) == Qlen s * (c * c).
Proof.
  induction 1 as [|x s Hx _ IH].
  - unfold Qlen. simpl. rewrite Qsum_nil. ring.
  - cbn [map]. rewrite Qsum_cons, Qlen_cons, IH. unfold Qsq.
    rewrite Hx. ring.
Qed.

Lemma Qsum_zip_const (c : Q) (s e : list Q) :
  Forall (fun x => x == c) s -> length e = length s ->
  Qsum (Qzip Qmult s e) == c * Qsum e.
Proof.
  intros Hall. revert e.
  induction Hall as [|x s Hx _ IH]; intros [|y e] Hlen;
    simpl in Hlen; try discriminate.
  - simpl. rewrite Qsum_nil. ring.
  - cbn [Qzip]. rewrite !Qsum_cons, IH by congruence. rewrite Hx. ring.
Qed.

Lemma identical_singular (s e : list Q) :
  all_identical s -> length e = length s ->
  denominator_of s e == 0 /\ numerator_of s e == 0.
Proof.
  intros Hall Hlen. destruct s as [|c s'] eqn:Es.
  - destruct e; [|discriminate]. split; vm_compute; reflexivity.
  - rewrite <- Es in *.
    assert (Hc : Forall (fun x => x == c) s).
    { apply all_identical_const; [assumption|]. rewrite Es. now left. }
    unfold denominator_of, numerator_of.
    rewrite (Qlen_eq e s Hlen).
    rewrite (Qsum_const c s Hc), (Qsum_sq_const c s Hc), (Qsum_zip_const c s e Hc Hlen).
    unfold Qsq. split; ring.
Qed.

Lemma denominator_as_squares (s e : list Q) :
  length e = length s ->
  Qsum (map (fun x => Qsq (Qlen s * x - Qsum s)) s)
  == Qlen s * denominator_of s e.
Proof.
  intros Hlen. rewrite Qsum_sq_shift. unfold denominator_of.
  rewrite (Qlen_eq e s Hlen). unfold Qsq. ring.
Qed.

Lemma denominator_nonzero (s e : list Q) :
  length e = length s -> ~ all_identical s -> ~ denominator_of s e == 0.
Proof.
  intros Hlen Hnot Hden. apply Hnot. intros x y Hx Hy.
  assert (Hs : s <> []) by (intros ->; destruct Hx).
  pose proof (Qlen_pos s Hs) as HN.
  pose proof (denominator_as_squares s e Hlen) as Hsq.
  rewrite Hden, Qmult_0_r in Hsq.
  pose proof (Qsum_sq_zero (fun x => Qlen s * x - Qsum s) s Hsq) as Hz.
  pose proof (Hz x Hx) as Ex. pose proof (Hz y Hy) as Ey. cbv beta in Ex, Ey.
  assert (E : Qlen s * (x - y) == 0) by lra.
  apply Qmult_integral in E. destruct E; lra.
Qed.

Lemma not_identical_nonempty (s : list Q) : ~ all_identical s -> s <> [].
Proof.
  intros Hnot ->. apply Hnot. intros x y [].
Qed.

End Denominator.

(** ** Linear data and linearity in the energies *)

Section Linear.

Local Open Scope Q_scope.

Lemma on_line_length m b s e : on_line m b s e -> length e = length s.
Proof. intros H. symmetry. exact (Forall2_length H). Qed.

Lemma on_line_sum m b s e :
  on_line m b s e -> Qsum e == m * Qsum s + Qlen s * b.
Proof.
  induction 1 as [|x y s e Hxy _ IH].
  - unfold Qlen. simpl. rewrite Qsum_nil. ring.
  - rewrite !Qsum_cons, Qlen_cons, IH, Hxy. ring.
Qed.

Lemma on_line_zip m b s e :
  on_line m b s e ->
  Qsum (Qzip Qmult s e) == m * Qsum (map Qsq s) + b * Qsum s.
Proof.
  induction 1 as [|x y s e Hxy _ IH].
  - simpl. rewrite Qsum_nil. ring.
  - cbn [Qzip map]. rewrite !Qsum_cons, IH, Hxy. unfold Qsq. ring.
Qed.

Lemma ols_intercept_on_line m b s e :
  on_line m b s e -> ~ all_identical s -> ols_intercept s e == b.
Proof.
  intros Hline Hnot.
  pose proof (on_line_length m b s e Hline) as Hlen.
  pose proof (denominator_nonzero s e Hlen Hnot) as Hden.
  pose proof (Qlen_pos s (not_identical_nonempty s Hnot)) as HN.
  unfold ols_intercept, ols_slope.
  assert (Hnum : numerator_of s e == m * denominator_of s e).
  { unfold numerator_of, denominator_of.
    rewrite (on_line_zip m b s e Hline), (on_line_sum m b s e Hline), (Qlen_eq e s Hlen).
    unfold Qsq. ring. }
  rewrite Hnum, (on_line_sum m b s e Hline), (Qlen_eq e s Hlen).
  field. split; [assumption | lra].
Qed.





End Linear.

(** ** Heaps that only grow, and what a program queues *)

Section Logic.

Local Open Scope M_scope.

Lemma extends_refl h : extends h h.
Proof. exists []. now rewrite app_nil_r. Qed.

Lemma extends_trans h1 h2 h3 : extends h1 h2 -> extends h2 h3 -> extends h1 h3.
Proof.
  intros [l ->] [l' ->]. exists (l ++ l'). now rewrite app_assoc.
Qed.

Lemma extends_app h l : extends h (h ++ l).
Proof. now exists l. Qed.

Lemma points_to_extends h h' r x :
  extends h h' -> points_to h r x -> points_to h' r x.
Proof.
  unfold points_to. intros [l ->] H.
  rewrite nth_error_app1; [assumption|].
  apply nth_error_Some. congruence.
Qed.

Lemma points_to_all_extends h h' rs vs :
  extends h h' ->
  Forall2 (points_to h) rs vs -> Forall2 (points_to h') rs vs.
Proof.
  intros He. apply Forall2_impl. intros r x. now apply points_to_extends.
Qed.

Lemma points_to_fresh h x : points_to (h ++ [x]) (length h) x.
Proof.
  unfold points_to. rewrite nth_error_app2 by lia.
  now rewrite Nat.sub_diag.
Qed.

Lemma Forall2_rev {A B} (R : A -> B -> Prop) l l' :
  Forall2 R l l' -> Forall2 R (rev l) (rev l').
Proof.
  induction 1 as [|x y l l' Hxy _ IH]; simpl; [constructor|].
  apply Forall2_app; [assumption | now constructor].
Qed.

(** *** Reading *)

Lemma reads_ret {A} h0 (a : A) : reads h0 (ret a) a.
Proof. intros st _. reflexivity. Qed.

Lemma reads_bind {A B} h0 (m : M A) (k : A -> M B) a b :
  reads h0 m a -> reads h0 (k a) b -> reads h0 (bind m k) b.
Proof.
  intros Hm Hk st Hst. unfold bind. rewrite (Hm st Hst). now apply Hk.
Qed.

Lemma reads_deref h0 r x : points_to h0 r x -> reads h0 (deref r) x.
Proof.
  intros Hr st Hst. unfold deref.
  now rewrite (points_to_extends _ _ _ _ Hst Hr).
Qed.

Lemma reads_attribute {A} h0 (f : object -> option A) r x a :
  points_to h0 r x -> f x = Some a -> reads h0 (attribute f r) a.
Proof.
  intros Hr Hf. unfold attribute.
  eapply reads_bind; [apply reads_deref; eassumption|].
  cbv beta. rewrite Hf. apply reads_ret.
Qed.

Lemma reads_subscript {A} h0 (l : list A) i a :
  nth_error l i = Some a -> reads h0 (subscript l i) a.
Proof. intros H. unfold subscript. rewrite H. apply reads_ret. Qed.

Lemma reads_get_operations h0 t ops ms :
  points_to h0 t (Tape ops ms) -> reads h0 (get_operations t) ops.
Proof. intros H. eapply reads_attribute; [eassumption | reflexivity]. Qed.

Lemma reads_get_measurements h0 t ops ms :
  points_to h0 t (Tape ops ms) -> reads h0 (get_measurements t) ms.
Proof. intros H. eapply reads_attribute; [eassumption | reflexivity]. Qed.

Lemma reads_iter_tape h0 t ops ms :
  points_to h0 t (Tape ops ms) -> reads h0 (iter_tape t) (ops ++ ms).
Proof.
  intros H. unfold iter_tape.
  eapply reads_bind; [eapply reads_get_operations; eassumption|].
  eapply reads_bind; [eapply reads_get_measurements; eassumption|].
  apply reads_ret.
Qed.

(** *** Queuing *)

Lemma emits_ret {A} h0 (a : A) : emits h0 (ret a) [].
Proof.
  intros st _. exists a, st. split; [reflexivity|].
  split; [apply extends_refl|].
  exists []. split; [now rewrite app_nil_r | constructor].
Qed.

Lemma emits_bind {A B} h0 (m : M A) (k : A -> M B) vs1 vs2 :
  emits h0 m vs1 -> (forall a, emits h0 (k a) vs2) ->
  emits h0 (bind m k) (vs1 ++ vs2).
Proof.
  intros Hm Hk st Hst.
  destruct (Hm st Hst) as (a & st1 & E1 & X1 & rs1 & Q1 & P1).
  destruct (Hk a st1 (extends_trans _ _ _ Hst X1))
    as (b & st2 & E2 & X2 & rs2 & Q2 & P2).
  exists b, st2. unfold bind. rewrite E1. split; [assumption|].
  split; [eapply extends_trans; eassumption|].
  exists (rs1 ++ rs2). split.
  - rewrite Q2, Q1. now rewrite app_assoc.
  - apply Forall2_app; [|assumption].
    eapply points_to_all_extends; eassumption.
Qed.

Lemma emits_read {A B} h0 (m : M A) (k : A -> M B) a vs :
  reads h0 m a -> emits h0 (k a) vs -> emits h0 (bind m k) vs.
Proof.
  intros Hm Hk st Hst. unfold bind. rewrite (Hm st Hst). now apply Hk.
Qed.

Lemma emits_lift {A B} h0 (a : A) (k : A -> M B) vs :
  emits h0 (k a) vs -> emits h0 (bind (lift (Ok a)) k) vs.
Proof. intros Hk st Hst. unfold bind, lift. now apply Hk. Qed.

Lemma emits_discard {A} h0 (m : M A) vs :
  emits h0 m vs -> emits h0 (discard m) vs.
Proof.
  intros Hm. unfold discard. rewrite <- (app_nil_r vs).
  apply emits_bind; [assumption|]. intros _. apply emits_ret.
Qed.

Lemma emits_for_each {A} h0 (body : A -> M unit) xs vss :
  Forall2 (fun x vs => emits h0 (body x) vs) xs vss ->
  emits h0 (for_each xs body) (concat vss).
Proof.
  induction 1 as [|x vs xs vss Hx _ IH]; simpl.
  - apply emits_ret.
  - apply emits_bind; [assumption|]. intros _. exact IH.
Qed.

Lemma emits_for_range h0 (body : M unit) vs n :
  emits h0 body vs -> emits h0 (for_range n body) (concat (repeat vs n)).
Proof.
  intros Hb. induction n as [|n IH]; simpl.
  - apply emits_ret.
  - apply emits_bind; [assumption|]. intros _. exact IH.
Qed.

Lemma emits_new_operator h0 o : emits h0 (new_operator o) [Operator o].
Proof.
  intros st _. eexists _, _. split; [reflexivity|]. cbn.
  split; [apply extends_app|].
  exists [length (heap st)]. split; [reflexivity|].
  constructor; [apply points_to_fresh | constructor].
Qed.

Lemma emits_apply h0 r x : points_to h0 r x -> emits h0 (apply r) [x].
Proof.
  intros Hr st Hst. unfold apply, bind, queued.
  destruct (existsb (Nat.eqb r) (queue st)).
  - rewrite (reads_deref h0 r x Hr st Hst). cbn.
    eexists _, _. split; [reflexivity|]. cbn.
    split; [apply extends_app|].
    exists [length (heap st)]. split; [reflexivity|].
    constructor; [apply points_to_fresh | constructor].
  - cbn. eexists _, _. split; [reflexivity|]. cbn.
    split; [apply extends_refl|].
    exists [r]. split; [reflexivity|].
    constructor; [|constructor]. eapply points_to_extends; eassumption.
Qed.

Lemma emits_apply_all h0 rs vs :
  Forall2 (points_to h0) rs vs ->
  emits h0 (for_each rs (fun op => discard (apply op))) vs.
Proof.
  intros H.
  replace vs with (concat (map (fun v => [v]) vs)).
  - apply emits_for_each. induction H; simpl; constructor; [|assumption].
    apply emits_discard. now apply emits_apply.
  - clear. induction vs; simpl; congruence.
Qed.

End Logic.

(** ** From queues to tapes *)

Section Tapes.

Lemma traverse_operator_at h os :
  forall rs, traverse (operator_at h) rs = Some os ->
             Forall2 (points_to h) rs (map Operator os).
Proof.
  intros rs. revert os.
  induction rs as [|r rs IH]; intros os H; simpl in H.
  - injection H as <-. constructor.
  - unfold operator_at at 1 in H.
    destruct (nth_error h r) as [[o| |]|] eqn:E; try discriminate.
    destruct (traverse (operator_at h) rs) as [os'|]; [|discriminate].
    injection H as <-. simpl. constructor; [exact E | now apply IH].
Qed.

Lemma traverse_measurement_at h ms :
  forall rs, traverse (measurement_at h) rs = Some ms ->
             Forall2 (points_to h) rs (map Measurement ms).
Proof.
  intros rs. revert ms.
  induction rs as [|r rs IH]; intros ms H; simpl in H.
  - injection H as <-. constructor.
  - unfold measurement_at at 1 in H.
    destruct (nth_error h r) as [[|m|]|] eqn:E; try discriminate.
    destruct (traverse (measurement_at h) rs) as [ms'|]; [|discriminate].
    injection H as <-. simpl. constructor; [exact E | now apply IH].
Qed.

(** A well-formed tape, seen through the references it holds. *)
Lemma read_tape_points_to h t v :
  read_tape h t = Some v ->
  exists ops ms,
    points_to h t (Tape ops ms) /\
    Forall2 (points_to h) ops (map Operator (tv_operations v)) /\
    Forall2 (points_to h) ms (map Measurement (tv_measurements v)).
Proof.
  unfold read_tape. intros H.
  destruct (nth_error h t) as [[| |ops ms]|] eqn:E; try discriminate.
  destruct (traverse (operator_at h) ops) as [os|] eqn:Eo; [|discriminate].
  destruct (traverse (measurement_at h) ms) as [mps|] eqn:Em; [|discriminate].
  injection H as <-. exists ops, ms. simpl.
  split; [exact E|]. split.
  - now apply traverse_operator_at.
  - now apply traverse_measurement_at.
Qed.

Lemma traverse_filter_operators h h' rs vs :
  extends h h' -> Forall2 (points_to h) rs vs ->
  traverse (operator_at h') (filter (is_operator h) rs)
  = Some (operators_of vs).
Proof.
  intros He. induction 1 as [|r x rs vs Hr _ IH]; [reflexivity|].
  pose proof (points_to_extends _ _ _ _ He Hr) as Hr'.
  unfold points_to in Hr, Hr'.
  cbn [filter]. unfold is_operator at 1. rewrite Hr.
  destruct x as [o|m|a b]; cbn [operators_of flat_map app] in *;
    [|exact IH|exact IH].
  cbn [traverse]. unfold operator_at at 1. rewrite Hr'.
  unfold operators_of in IH. now rewrite IH.
Qed.

Lemma traverse_filter_measurements h h' rs vs :
  extends h h' -> Forall2 (points_to h) rs vs ->
  traverse (measurement_at h') (filter (is_measurement h) rs)
  = Some (measurements_of vs).
Proof.
  intros He. induction 1 as [|r x rs vs Hr _ IH]; [reflexivity|].
  pose proof (points_to_extends _ _ _ _ He Hr) as Hr'.
  unfold points_to in Hr, Hr'.
  cbn [filter]. unfold is_measurement at 1. rewrite Hr.
  destruct x as [o|m|a b]; cbn [measurements_of flat_map app] in *;
    [exact IH| |exact IH].
  cbn [traverse]. unfold measurement_at at 1. rewrite Hr'.
  unfold measurements_of in IH. now rewrite IH.
Qed.

Lemma operators_of_app vs ws :
  operators_of (vs ++ ws) = operators_of vs ++ operators_of ws.
Proof. apply flat_map_app. Qed.

Lemma measurements_of_app vs ws :
  measurements_of (vs ++ ws) = measurements_of vs ++ measurements_of ws.
Proof. apply flat_map_app. Qed.

Lemma operators_of_operators os : operators_of (map Operator os) = os.
Proof. induction os; simpl; congruence. Qed.

Lemma operators_of_measurements ms : operators_of (map Measurement ms) = [].
Proof. induction ms; simpl; congruence. Qed.

Lemma measurements_of_operators os : measurements_of (map Operator os) = [].
Proof. induction os; simpl; congruence. Qed.

Lemma measurements_of_measurements ms :
  measurements_of (map Measurement ms) = ms.
Proof. induction ms; simpl; congruence. Qed.

Lemma objects_split os ms :
  operators_of (map Operator os ++ map Measurement ms) = os /\
  measurements_of (map Operator os ++ map Measurement ms) = ms.
Proof.
  rewrite operators_of_app, measurements_of_app.
  rewrite operators_of_operators, operators_of_measurements.
  rewrite measurements_of_operators, measurements_of_measurements.
  now rewrite app_nil_r.
Qed.

(** What [single_tape_transform] makes of a body that queues [vs]: a new
    tape object, on a heap that extends the old one, holding the
    operators and the measurement processes of [vs]; the surrounding queue
    is untouched. *)
Lemma single_tape_transform_emits h0 f t vs :
  emits h0 (f t) vs ->
  forall st, extends h0 (heap st) ->
    exists t' st',
      single_tape_transform f t st = Ok (t', st') /\
      extends (heap st) (heap st') /\
      queue st' = queue st /\
      (length (heap st) <= t')%nat /\
      read_tape (heap st') t'
      = Some (mkTapeValue (operators_of vs) (measurements_of vs)).
Proof.
  intros Hf st Hst.
  destruct (Hf (mkState (heap st) []) Hst)
    as (a & st1 & E & X & rs & Q & P).
  cbn [heap queue app] in *.
  unfold single_tape_transform. rewrite E. cbn.
  eexists _, _. split; [reflexivity|]. cbn [heap queue].
  split; [eapply extends_trans; [eassumption | apply extends_app]|].
  split; [reflexivity|].
  split.
  { destruct X as [l ->]. rewrite length_app. lia. }
  unfold read_tape. rewrite points_to_fresh. rewrite Q.
  rewrite (traverse_filter_operators _ _ _ _ (extends_app _ _) P).
  rewrite (traverse_filter_measurements _ _ _ _ (extends_app _ _) P).
  reflexivity.
Qed.

End Tapes.

(** ** What the transforms queue *)

Section Folding.

Variable adjoint : Operation -> option Operation.

Lemma traverse_app {A B} (f : A -> option B) xs xs' ys ys' :
  traverse f xs = Some ys -> traverse f xs' = Some ys' ->
  traverse f (xs ++ xs') = Some (ys ++ ys').
Proof.
  revert ys. induction xs as [|x xs IH]; intros ys H H'.
  - injection H as <-. exact H'.
  - cbn [traverse app] in *.
    destruct (f x) as [y|]; [|discriminate].
    destruct (traverse f xs) as [zs|]; [|discriminate].
    injection H as <-. now rewrite (IH zs eq_refl H').
Qed.

Lemma traverse_rev {A B} (f : A -> option B) xs ys :
  traverse f xs = Some ys -> traverse f (rev xs) = Some (rev ys).
Proof.
  revert ys. induction xs as [|x xs IH]; intros ys H.
  - injection H as <-. reflexivity.
  - cbn [traverse] in H.
    destruct (f x) as [y|] eqn:Ex; [|discriminate].
    destruct (traverse f xs) as [zs|]; [|discriminate].
    injection H as <-. cbn [rev].
    apply traverse_app; [now apply IH|]. cbn [traverse]. now rewrite Ex.
Qed.

Lemma traverse_length {A B} (f : A -> option B) xs ys :
  traverse f xs = Some ys -> length ys = length xs.
Proof.
  revert ys. induction xs as [|x xs IH]; intros ys H.
  - injection H as <-. reflexivity.
  - cbn [traverse] in H.
    destruct (f x) as [y|]; [|discriminate].
    destruct (traverse f xs) as [zs|]; [|discriminate].
    injection H as <-. cbn [length]. now rewrite (IH zs eq_refl).
Qed.

(** Where [traverse] fails: the first element without a value. *)
Lemma traverse_none_in {A B} (f : A -> option B) xs :
  traverse f xs = None -> exists x, In x xs /\ f x = None.
Proof.
  induction xs as [|x xs IH]; [discriminate|]. cbn [traverse]. intros H.
  destruct (f x) as [y|] eqn:Ex.
  - destruct (traverse f xs) as [zs|]; [discriminate|].
    destruct (IH eq_refl) as (x' & Hin & Hx'). exists x'. split; [now right|].
    exact Hx'.
  - exists x. split; [now left | exact Ex].
Qed.

Lemma first_without_value {A B} (f : A -> option B) xs x :
  In x xs -> f x = None ->
  exists pre x' post ys,
    xs = pre ++ x' :: post /\ traverse f pre = Some ys /\ f x' = None.
Proof.
  induction xs as [|a xs IH]; intros Hin Hx; [destruct Hin|].
  destruct (f a) as [y|] eqn:Ea.
  - destruct Hin as [-> | Hin]; [congruence|].
    destruct (IH Hin Hx) as (pre & x' & post & ys & -> & Hpre & Hx').
    exists (a :: pre), x', post, (y :: ys).
    split; [reflexivity|]. split; [|exact Hx'].
    cbn [traverse]. now rewrite Ea, Hpre.
  - exists [], a, xs, []. repeat split. exact Ea.
Qed.

Lemma emits_op_adjoint h0 r o o' :
  points_to h0 r (Operator o) -> adjoint o = Some o' ->
  emits h0 (op_adjoint adjoint r) [Operator o'].
Proof.
  intros Hr Ho. unfold op_adjoint.
  eapply emits_read; [apply reads_deref; eassumption|].
  cbv beta iota. rewrite Ho. apply emits_new_operator.
Qed.

Lemma adjoint_ready h0 rs os adjs :
  Forall2 (points_to h0) rs (map Operator os) ->
  traverse adjoint os = Some adjs ->
  Forall2 (fun r vs => emits h0 (discard (op_adjoint adjoint r)) vs)
          rs (map (fun o' => [Operator o']) adjs).
Proof.
  revert rs adjs.
  induction os as [|o os IH]; intros rs adjs H Ha; inversion H; subst;
    cbn [traverse] in Ha.
  - injection Ha as <-. constructor.
  - destruct (adjoint o) as [o'|] eqn:Eo; [|discriminate].
    destruct (traverse adjoint os) as [adjs'|] eqn:Et; [|discriminate].
    injection Ha as <-. cbn [map]. constructor.
    + apply emits_discard. now apply emits_op_adjoint with o.
    + now apply IH.
Qed.

Lemma emits_adjoint_all h0 rs os adjs :
  Forall2 (points_to h0) rs (map Operator os) ->
  traverse adjoint os = Some adjs ->
  emits h0 (for_each rs (fun op => discard (op_adjoint adjoint op)))
        (map Operator adjs).
Proof.
  intros H Ha.
  replace (map Operator adjs)
    with (concat (map (fun o' => [Operator o']) adjs))
    by (clear; induction adjs; simpl; congruence).
  apply emits_for_each. now apply adjoint_ready with os.
Qed.

(** A loop stops at the first round that raises. *)
Lemma for_each_raises {A} h0 (body : A -> M unit) pre x post vss e :
  Forall2 (fun y vs => emits h0 (body y) vs) pre vss ->
  (forall st, extends h0 (heap st) -> body x st = Raise e) ->
  forall st, extends h0 (heap st) ->
    for_each (pre ++ x :: post) body st = Raise e.
Proof.
  intros Hpre Hx. induction Hpre as [|y vs pre vss Hy _ IH]; intros st Hst.
  - cbn [app for_each]. unfold bind. now rewrite (Hx st Hst).
  - cbn [app for_each]. unfold bind at 1.
    destruct (Hy st Hst) as (u & st1 & E1 & X1 & _). rewrite E1.
    apply IH. eapply extends_trans; eassumption.
Qed.

Lemma op_adjoint_raises h0 r o :
  points_to h0 r (Operator o) -> adjoint o = None ->
  forall st, extends h0 (heap st) ->
    discard (op_adjoint adjoint r) st = Raise AdjointUndefinedError.
Proof.
  intros Hr Ho st Hst. unfold discard, op_adjoint. unfold bind.
  rewrite (reads_deref _ _ _ Hr st Hst). now rewrite Ho.
Qed.

(** The adjoints are asked for from the last operation to the first: the
    loop raises at the last operation that has none. *)
Lemma adjoint_all_raises h0 rs os :
  Forall2 (points_to h0) rs (map Operator os) ->
  traverse adjoint os = None ->
  forall st, extends h0 (heap st) ->
    for_each (rev rs) (fun op => discard (op_adjoint adjoint op)) st
    = Raise AdjointUndefinedError.
Proof.
  intros H Ha st Hst.
  destruct (traverse_none_in _ _ Ha) as (x & Hin & Hx).
  apply in_rev in Hin.
  destruct (first_without_value _ _ _ Hin Hx)
    as (pre & x' & post & ys & Hsplit & Hpre & Hx').
  apply Forall2_rev in H. rewrite <- map_rev, Hsplit, map_app in H.
  cbn [map] in H.
  apply Forall2_app_inv_r in H.
  destruct H as (rpre & rrest & Hrpre & Hrrest & ->).
  inversion Hrrest as [|r ? rpost ? Hr Hrpost]; subst.
  eapply for_each_raises.
  - eapply adjoint_ready; eassumption.
  - now apply op_adjoint_raises with x'.
  - exact Hst.
Qed.

Lemma Qtruncate_inject_Z z : Qtruncate (inject_Z z) = z.
Proof. unfold Qtruncate. simpl. apply Z.quot_1_r. Qed.

Lemma num_folds_finite q :
  to_int (math.round ((Fin q - Fin 1) / Fin 2)%num)
  = Ok (Qround_half_even ((q - 1) / 2)).
Proof.
  cbn. now rewrite Qtruncate_inject_Z.
Qed.

Lemma folded_rounds adjs k os :
  concat (repeat (map Operator (rev adjs) ++ map Operator os) k)
  = map Operator (folded adjs k os).
Proof.
  induction k as [|k IH]; [reflexivity|].
  cbn [repeat concat folded]. rewrite IH, !map_app.
  now rewrite app_assoc.
Qed.

(** What [unitary_folding] queues for a finite scale factor, when it does
    not fold or when every operation has an adjoint: the operations, then
    [fold_count] rounds of the adjoints in reverse order followed by the
    operations, then the measurements. *)
Lemma unitary_folding_emits h0 t v q adjs :
  read_tape h0 t = Some v ->
  fold_count q = 0%nat \/ traverse adjoint (tv_operations v) = Some adjs ->
  emits h0 (unitary_folding adjoint t (Fin q))
        (map Operator
             (tv_operations v
              ++ folded adjs (fold_count q) (tv_operations v))
         ++ map Measurement (tv_measurements v)).
Proof.
  intros Hv Hcase.
  destruct (read_tape_points_to _ _ _ Hv) as (ops & ms & Ht & Hops & Hms).
  unfold unitary_folding.
  eapply emits_read; [eapply reads_get_operations; eassumption|].
  rewrite map_app, <- app_assoc.
  apply emits_bind; [now apply emits_apply_all|]. intros _.
  rewrite num_folds_finite. apply emits_lift.
  apply emits_bind.
  - fold (fold_count q). destruct Hcase as [Hk | Ha].
    + rewrite Hk. cbn [for_range folded map]. apply emits_ret.
    + rewrite <- folded_rounds.
      apply emits_for_range.
      eapply emits_read; [eapply reads_get_operations; eassumption|].
      apply emits_bind.
      * apply emits_adjoint_all with (rev (tv_operations v)).
        -- rewrite map_rev. now apply Forall2_rev.
        -- now apply traverse_rev.
      * intros _.
        eapply emits_read; [eapply reads_get_operations; eassumption|].
        now apply emits_apply_all.
  - intros _.
    eapply emits_read; [eapply reads_get_measurements; eassumption|].
    now apply emits_apply_all.
Qed.

Lemma unitary_folding_tape st t v q adjs :
  read_tape (heap st) t = Some v ->
  fold_count q = 0%nat \/ traverse adjoint (tv_operations v) = Some adjs ->
  exists t' st',
    single_tape_transform (fun t => unitary_folding adjoint t (Fin q)) t st
    = Ok (t', st') /\
    extends (heap st) (heap st') /\
    queue st' = queue st /\
    (length (heap st) <= t')%nat /\
    read_tape (heap st') t' = Some (folded_tape adjs (fold_count q) v).
Proof.
  intros Hv Hcase.
  pose proof (unitary_folding_emits _ _ _ q adjs Hv Hcase) as He.
  destruct (single_tape_transform_emits _
              (fun t => unitary_folding adjoint t (Fin q)) _ _ He st
              (extends_refl _))
    as (t' & st' & E & X & Q & F & R).
  exists t', st'. repeat (split; [assumption|]).
  rewrite R. unfold folded_tape.
  destruct (objects_split
              (tv_operations v
               ++ folded adjs (fold_count q) (tv_operations v))
              (tv_measurements v)) as [-> ->].
  reflexivity.
Qed.

(** Folding a tape that holds an operation without adjoint: the first
    round of the loop raises. *)
Lemma unitary_folding_undefined h0 t v q :
  read_tape h0 t = Some v ->
  traverse adjoint (tv_operations v) = None ->
  (1 <= fold_count q)%nat ->
  forall st, extends h0 (heap st) ->
    unitary_folding adjoint t (Fin q) st = Raise AdjointUndefinedError.
Proof.
  intros Hv Ha Hk st Hst.
  destruct (read_tape_points_to _ _ _ Hv) as (ops & ms & Ht & Hops & Hms).
  unfold unitary_folding. unfold bind at 1.
  rewrite (reads_get_operations _ _ _ _ Ht st Hst).
  destruct (emits_apply_all _ _ _ Hops st Hst) as (a & st1 & E1 & X1 & _).
  unfold bind at 1. rewrite E1.
  rewrite num_folds_finite. unfold bind at 1. cbn [lift].
  change (Z.to_nat (Qround_half_even ((q - 1) / 2))) with (fold_count q).
  destruct (fold_count q) as [|k]; [lia|].
  assert (Hst1 : extends h0 (heap st1))
    by (eapply extends_trans; eassumption).
  cbn [for_range]. unfold bind at 1. unfold bind at 1. unfold bind at 1.
  rewrite (reads_get_operations _ _ _ _ Ht st1 Hst1).
  unfold bind at 1.
  now rewrite (adjoint_all_raises _ _ _ Hops Ha st1 Hst1).
Qed.

Lemma folding_transform_undefined st t v q :
  read_tape (heap st) t = Some v ->
  traverse adjoint (tv_operations v) = None ->
  (1 <= fold_count q)%nat ->
  single_tape_transform (fun tape => unitary_folding adjoint tape (Fin q)) t st
  = Raise AdjointUndefinedError.
Proof.
  intros Hv Ha Hk. unfold single_tape_transform.
  rewrite (unitary_folding_undefined _ _ _ q Hv Ha Hk (mkState (heap st) []));
    [reflexivity | apply extends_refl].
Qed.

(** A call of the folding transform that returns has folded nothing or has
    found an adjoint for every operation. *)
Lemma folding_transform_returns st t v q t' st' :
  read_tape (heap st) t = Some v ->
  single_tape_transform (fun tape => unitary_folding adjoint tape (Fin q)) t st
  = Ok (t', st') ->
  fold_count q = 0%nat
  \/ exists adjs, traverse adjoint (tv_operations v) = Some adjs.
Proof.
  intros Hv E.
  destruct (fold_count q) as [|k] eqn:Ek; [now left|]. right.
  destruct (traverse adjoint (tv_operations v)) as [adjs|] eqn:Ea;
    [now exists adjs|].
  rewrite (folding_transform_undefined st t v q Hv Ea) in E
    by (rewrite Ek; lia).
  discriminate E.
Qed.

(** The scale factor is looked at after the operations have been queued:
    when its number of folds cannot be made an integer, the exception of
    [int] is the exception of the transform. *)
Lemma unitary_folding_stops h0 t v (s : num) (e : exn) :
  read_tape h0 t = Some v ->
  to_int (math.round ((s - Fin 1) / Fin 2)%num) = Raise e ->
  forall st, extends h0 (heap st) -> unitary_folding adjoint t s st = Raise e.
Proof.
  intros Hv Hs st Hst.
  destruct (read_tape_points_to _ _ _ Hv) as (ops & ms & Ht & Hops & Hms).
  unfold unitary_folding. unfold bind at 1.
  rewrite (reads_get_operations _ _ _ _ Ht st Hst).
  destruct (emits_apply_all _ _ _ Hops st Hst) as (a & st1 & E1 & _).
  unfold bind at 1. rewrite E1.
  unfold bind at 1. rewrite Hs. reflexivity.
Qed.

Lemma folding_transform_stops st t v (s : num) (e : exn) :
  read_tape (heap st) t = Some v ->
  to_int (math.round ((s - Fin 1) / Fin 2)%num) = Raise e ->
  single_tape_transform (fun tape => unitary_folding adjoint tape s) t st
  = Raise e.
Proof.
  intros Hv Hs. unfold single_tape_transform.
  rewrite (unitary_folding_stops _ _ _ s e Hv Hs (mkState (heap st) []));
    [reflexivity | apply extends_refl].
Qed.

End Folding.

Section Rewriting.

Lemma reads_get_name h0 r x nm :
  points_to h0 r x -> object_name x = Some nm -> reads h0 (get_name r) nm.
Proof. intros. eapply reads_attribute; eassumption. Qed.

Lemma reads_get_wire h0 r x ws i w :
  points_to h0 r x -> object_wires x = Some ws -> nth_error ws i = Some w ->
  reads h0 (get_wire r i) w.
Proof.
  intros Hr Hw Hi. unfold get_wire.
  eapply reads_bind; [eapply reads_attribute; eassumption|].
  now apply reads_subscript.
Qed.

Lemma reads_get_data h0 r x ds i d :
  points_to h0 r x -> object_data x = Some ds -> nth_error ds i = Some d ->
  reads h0 (get_data r i) d.
Proof.
  intros Hr Hd Hi. unfold get_data.
  eapply reads_bind; [eapply reads_attribute; eassumption|].
  now apply reads_subscript.
Qed.

(** A transform that goes through the tape and queues [g o] for an
    operator [o] and the measurement process itself for a measurement
    process. *)
Lemma emits_rewrite h0 (body : ref -> M unit)
      (P : Operation -> Prop) (g : Operation -> list Operation) t v :
  (forall r o, points_to h0 r (Operator o) -> P o ->
               emits h0 (body r) (map Operator (g o))) ->
  (forall r m, points_to h0 r (Measurement m) ->
               emits h0 (body r) [Measurement m]) ->
  read_tape h0 t = Some v ->
  Forall P (tv_operations v) ->
  emits h0 (bind (iter_tape t) (fun objs => for_each objs body))
        (map Operator (flat_map g (tv_operations v))
         ++ map Measurement (tv_measurements v)).
Proof.
  intros Hop Hmp Hv HP.
  destruct (read_tape_points_to _ _ _ Hv) as (ops & ms & Ht & Hops & Hms).
  eapply emits_read; [eapply reads_iter_tape; eassumption|].
  replace (map Operator (flat_map g (tv_operations v))
           ++ map Measurement (tv_measurements v))
    with (concat (map (fun o => map Operator (g o)) (tv_operations v)
                  ++ map (fun m => [Measurement m]) (tv_measurements v))).
  - apply emits_for_each. apply Forall2_app.
    + clear Hms Ht Hv. revert ops Hops.
      induction HP as [|o os Ho _ IH]; intros ops Hops;
        inversion Hops; subst; simpl; constructor.
      * now apply Hop.
      * now apply IH.
    + clear Hops Ht Hv HP. revert ms Hms.
      induction (tv_measurements v) as [|m mps IH]; intros ms Hms;
        inversion Hms; subst; simpl; constructor.
      * now apply Hmp.
      * now apply IH.
  - rewrite concat_app. f_equal.
    + rewrite flat_map_concat_map, concat_map, map_map. reflexivity.
    + clear. induction (tv_measurements v); simpl; congruence.
Qed.

Lemma convert_cnots_emits h0 t v :
  read_tape h0 t = Some v ->
  Forall cnot_ready (tv_operations v) ->
  emits h0 (convert_cnots t)
        (map Operator (flat_map cnot_to_cz (tv_operations v))
         ++ map Measurement (tv_measurements v)).
Proof.
  intros Hv Hready. unfold convert_cnots.
  apply emits_rewrite with (P := cnot_ready); try assumption.
  - intros r o Hr Ho.
    eapply emits_read; [eapply reads_get_name; [eassumption|reflexivity]|].
    unfold cnot_to_cz.
    destruct (String.eqb (name o) "CNOT") eqn:E.
    + apply String.eqb_eq in E. specialize (Ho E).
      destruct (wires o) as [|w0 [|w1 ws]] eqn:Ew; simpl in Ho; try lia.
      assert (R0 : reads h0 (get_wire r 0) w0)
        by (eapply reads_get_wire; [eassumption|simpl; rewrite Ew|];
            reflexivity).
      assert (R1 : reads h0 (get_wire r 1) w1)
        by (eapply reads_get_wire; [eassumption|simpl; rewrite Ew|];
            reflexivity).
      eapply emits_read; [exact R1|].
      apply (emits_bind h0 (Hadamard w1) _ [_] [_; _]);
        [apply emits_new_operator|]. intros _.
      eapply emits_read; [exact R0|].
      eapply emits_read; [exact R1|].
      apply (emits_bind h0 (CZ [w0; w1]) _ [_] [_]);
        [apply emits_new_operator|]. intros _.
      eapply emits_read; [exact R1|].
      apply emits_discard. apply emits_new_operator.
    + apply emits_discard. now apply emits_apply.
  - intros r m Hr.
    eapply emits_read; [eapply reads_get_name; [eassumption|reflexivity]|].
    cbn. apply emits_discard. now apply emits_apply.
Qed.

Lemma overrotate_rx_emits h0 t v epsilon :
  read_tape h0 t = Some v ->
  Forall rx_ready (tv_operations v) ->
  emits h0 (overrotate_rx t epsilon)
        (map Operator (flat_map (overrotated epsilon) (tv_operations v))
         ++ map Measurement (tv_measurements v)).
Proof.
  intros Hv Hready. unfold overrotate_rx.
  apply emits_rewrite with (P := rx_ready); try assumption.
  - intros r o Hr Ho.
    eapply emits_read; [eapply reads_get_name; [eassumption|reflexivity]|].
    unfold overrotated, rx_rewritten.
    destruct (String.eqb (name o) "RX") eqn:E.
    + apply String.eqb_eq in E. destruct (Ho E) as [Hw Hd].
      destruct (wires o) as [|w ws] eqn:Ew; simpl in Hw; try lia.
      destruct (data o) as [|d ds] eqn:Ed; simpl in Hd; try lia.
      eapply emits_read;
        [eapply reads_get_data; [eassumption|simpl; rewrite Ed|];
         reflexivity|].
      eapply emits_read;
        [eapply reads_get_wire; [eassumption|simpl; rewrite Ew|];
         reflexivity|].
      apply emits_discard. apply emits_new_operator.
    + apply emits_discard. now apply emits_apply.
  - intros r m Hr.
    eapply emits_read; [eapply reads_get_name; [eassumption|reflexivity]|].
    cbn. apply emits_discard. now apply emits_apply.
Qed.

(** The tape a rewriting transform returns. *)
Lemma rewritten_tape h0 f t os ms :
  emits h0 (f t) (map Operator os ++ map Measurement ms) ->
  forall st, extends h0 (heap st) ->
    exists t' st',
      single_tape_transform f t st = Ok (t', st') /\
      extends (heap st) (heap st') /\
      queue st' = queue st /\
      (length (heap st) <= t')%nat /\
      read_tape (heap st') t' = Some (mkTapeValue os ms).
Proof.
  intros He st Hst.
  destruct (single_tape_transform_emits _ _ _ _ He st Hst)
    as (t' & st' & E & X & Q & F & R).
  exists t', st'. repeat (split; [assumption|]).
  rewrite R. now destruct (objects_split os ms) as [-> ->].
Qed.

Lemma cnot_to_cz_other os :
  Forall (fun o => name o <> "CNOT"%string) os -> flat_map cnot_to_cz os = os.
Proof.
  induction 1 as [|o os Ho _ IH]; [reflexivity|].
  cbn [flat_map]. rewrite IH. unfold cnot_to_cz.
  apply String.eqb_neq in Ho. now rewrite Ho.
Qed.

Lemma square_root_rx_emits sqrt h0 t v :
  read_tape h0 t = Some v ->
  Forall rx_ready (tv_operations v) ->
  emits h0 (square_root_rx sqrt t)
        (map Operator (flat_map (rx_rewritten sqrt) (tv_operations v))
         ++ map Measurement (tv_measurements v)).
Proof.
  intros Hv Hready. unfold square_root_rx.
  apply emits_rewrite with (P := rx_ready); try assumption.
  - intros r o Hr Ho.
    eapply emits_read; [eapply reads_get_name; [eassumption|reflexivity]|].
    unfold rx_rewritten.
    destruct (String.eqb (name o) "RX") eqn:E.
    + apply String.eqb_eq in E. destruct (Ho E) as [Hw Hd].
      destruct (wires o) as [|w ws] eqn:Ew; simpl in Hw; try lia.
      destruct (data o) as [|d ds] eqn:Ed; simpl in Hd; try lia.
      eapply emits_read;
        [eapply reads_get_data; [eassumption|simpl; rewrite Ed|];
         reflexivity|].
      eapply emits_read;
        [eapply reads_get_wire; [eassumption|simpl; rewrite Ew|];
         reflexivity|].
      apply emits_discard. apply emits_new_operator.
    + apply emits_discard. now apply emits_apply.
  - intros r m Hr.
    eapply emits_read; [eapply reads_get_name; [eassumption|reflexivity]|].
    cbn. apply emits_discard. now apply emits_apply.
Qed.

Lemma rx_rewritten_other f os :
  Forall (fun o => name o <> "RX"%string) os ->
  flat_map (rx_rewritten f) os = os.
Proof.
  induction 1 as [|o os Ho _ IH]; [reflexivity|].
  cbn [flat_map]. rewrite IH. unfold rx_rewritten.
  apply String.eqb_neq in Ho. now rewrite Ho.
Qed.

Lemma overrotated_other epsilon os :
  Forall (fun o => name o <> "RX"%string) os ->
  flat_map (overrotated epsilon) os = os.
Proof. apply rx_rewritten_other. Qed.

End Rewriting.

(** ** No object is written: every call that returns leaves a heap that
    extends the one it found *)

Section Frame.

Local Open Scope M_scope.

Lemma grows_ret {A} (a : A) : grows (ret a).
Proof. intros st b st' [= _ <-]. apply extends_refl. Qed.

Lemma grows_raise {A} e : grows (@raise A e).
Proof. intros st a st' [=]. Qed.

Lemma grows_lift {A} (o : outcome A) : grows (lift o).
Proof.
  intros st a st'. unfold lift. destruct o; intros [=]; subst.
  apply extends_refl.
Qed.

Lemma grows_bind {A B} (m : M A) (k : A -> M B) :
  grows m -> (forall a, grows (k a)) -> grows (bind m k).
Proof.
  intros Hm Hk st b st'. unfold bind.
  destruct (m st) as [[a st1]|e] eqn:E; [|discriminate].
  intros E'. eapply extends_trans; [eapply Hm | eapply Hk]; eassumption.
Qed.

Lemma grows_deref r : grows (deref r).
Proof.
  intros st x st'. unfold deref.
  destruct (nth_error (heap st) r); intros [=]; subst. apply extends_refl.
Qed.

Lemma grows_alloc x : grows (alloc x).
Proof. intros st r st' [= _ <-]. apply extends_app. Qed.

Lemma grows_append r : grows (append r).
Proof. intros st u st' [= _ <-]. apply extends_refl. Qed.

Lemma grows_queued r : grows (queued r).
Proof. intros st b st' [= _ <-]. apply extends_refl. Qed.

Create HintDb frame discriminated.

#[local] Hint Resolve grows_ret grows_raise grows_lift grows_deref
  grows_alloc grows_append grows_queued : frame.
#[local] Hint Extern 1 (grows (bind _ _)) =>
  apply grows_bind; [|intros] : frame.
#[local] Hint Extern 2 (grows (if ?b then _ else _)) => destruct b : frame.
#[local] Hint Extern 2 (grows (match ?x with _ => _ end)) =>
  destruct x : frame.

Ltac frame := auto 30 with frame.

Lemma grows_attribute {A} (f : object -> option A) r :
  grows (attribute f r).
Proof. unfold attribute. frame. Qed.

Lemma grows_subscript {A} (l : list A) i : grows (subscript l i).
Proof. unfold subscript. frame. Qed.

#[local] Hint Resolve grows_attribute grows_subscript : frame.

Lemma grows_get_wire r i : grows (get_wire r i).
Proof. unfold get_wire. frame. Qed.

Lemma grows_get_data r i : grows (get_data r i).
Proof. unfold get_data. frame. Qed.

Lemma grows_iter_tape t : grows (iter_tape t).
Proof. unfold iter_tape, get_operations, get_measurements. frame. Qed.

Lemma grows_apply r : grows (apply r).
Proof. unfold apply. frame. Qed.

Lemma grows_new_operator o : grows (new_operator o).
Proof. unfold new_operator. frame. Qed.

Lemma grows_discard {A} (m : M A) : grows m -> grows (discard m).
Proof. intros H. unfold discard. frame. Qed.

Lemma grows_for_each {A} (xs : list A) (body : A -> M unit) :
  (forall x, grows (body x)) -> grows (for_each xs body).
Proof.
  intros Hb. induction xs as [|x xs IH]; simpl; frame.
Qed.

Lemma grows_for_range n (body : M unit) :
  grows body -> grows (for_range n body).
Proof.
  intros Hb. induction n as [|n IH]; simpl; frame.
Qed.

#[local] Hint Resolve grows_get_wire grows_get_data grows_iter_tape
  grows_apply grows_new_operator grows_discard : frame.
#[local] Hint Extern 1 (grows (for_each _ _)) =>
  apply grows_for_each; intros : frame.
#[local] Hint Extern 1 (grows (for_range _ _)) =>
  apply grows_for_range : frame.

Lemma grows_op_adjoint adjoint r : grows (op_adjoint adjoint r).
Proof. unfold op_adjoint. frame. Qed.

#[local] Hint Resolve grows_op_adjoint : frame.

Lemma grows_unitary_folding adjoint t s : grows (unitary_folding adjoint t s).
Proof. unfold unitary_folding, get_operations, get_measurements. frame. Qed.

Lemma grows_convert_cnots t : grows (convert_cnots t).
Proof. unfold convert_cnots, Hadamard, CZ, get_name. frame. Qed.

Lemma grows_overrotate_rx t epsilon : grows (overrotate_rx t epsilon).
Proof. unfold overrotate_rx, RX, get_name. frame. Qed.

Lemma grows_square_root_rx sqrt t : grows (square_root_rx sqrt t).
Proof. unfold square_root_rx, RX, get_name. frame. Qed.

(** A tape transform adds its tape to the heap the body leaves: the tape
    it returns is a new object. *)
Lemma single_tape_transform_new f t st t' st' :
  grows (f t) ->
  single_tape_transform f t st = Ok (t', st') ->
  extends (heap st) (heap st') /\
  queue st' = queue st /\
  (length (heap st) <= t')%nat /\
  exists ops ms, points_to (heap st') t' (Tape ops ms).
Proof.
  intros Hf. unfold single_tape_transform.
  destruct (f t (mkState (heap st) [])) as [[u st1]|e] eqn:E;
    [|discriminate].
  pose proof (Hf _ _ _ E) as X. cbn [heap] in X.
  unfold alloc. cbn [heap queue]. intros [= <- <-]. cbn [heap queue].
  split; [eapply extends_trans; [exact X | apply extends_app]|].
  split; [reflexivity|].
  split; [destruct X as [l ->]; rewrite length_app; lia|].
  eexists _, _. apply points_to_fresh.
Qed.

Lemma grows_single_tape_transform f t :
  grows (f t) -> grows (single_tape_transform f t).
Proof.
  intros Hf st t' st' E.
  now destruct (single_tape_transform_new _ _ _ _ _ Hf E).
Qed.

Lemma grows_map_M {A B} (f : A -> M B) xs :
  (forall x, grows (f x)) -> grows (map_M f xs).
Proof.
  intros Hf. induction xs as [|x xs IH]; simpl; [apply grows_ret|].
  apply grows_bind; [apply Hf|]. intros y.
  apply grows_bind; [exact IH|]. intros. apply grows_ret.
Qed.

Lemma grows_zne t f qs : (forall t q, grows (f t q)) -> grows (zne t f qs).
Proof.
  intros Hf. unfold zne.
  apply grows_bind; [|intros; apply grows_ret].
  apply grows_map_M. intros q. apply grows_single_tape_transform, Hf.
Qed.

(** A tape reads the same on a heap that extends the one it was read on. *)
Lemma traverse_extends {B} (f g : ref -> option B) rs ys :
  (forall r y, f r = Some y -> g r = Some y) ->
  traverse f rs = Some ys -> traverse g rs = Some ys.
Proof.
  intros Hfg. revert ys.
  induction rs as [|r rs IH]; intros ys H; simpl in *; [assumption|].
  destruct (f r) as [y|] eqn:E; [|discriminate].
  destruct (traverse f rs) as [ys'|]; [|discriminate].
  rewrite (Hfg _ _ E), (IH _ eq_refl). assumption.
Qed.

Lemma operator_at_extends h h' r o :
  extends h h' -> operator_at h r = Some o -> operator_at h' r = Some o.
Proof.
  intros He. unfold operator_at.
  destruct (nth_error h r) as [x|] eqn:E; [|discriminate].
  now rewrite (points_to_extends _ _ _ _ He E).
Qed.

Lemma measurement_at_extends h h' r m :
  extends h h' ->
  measurement_at h r = Some m -> measurement_at h' r = Some m.
Proof.
  intros He. unfold measurement_at.
  destruct (nth_error h r) as [x|] eqn:E; [|discriminate].
  now rewrite (points_to_extends _ _ _ _ He E).
Qed.

Lemma read_tape_extends h h' t v :
  extends h h' -> read_tape h t = Some v -> read_tape h' t = Some v.
Proof.
  intros He. unfold read_tape.
  destruct (nth_error h t) as [x|] eqn:E; [|discriminate].
  rewrite (points_to_extends _ _ _ _ He E).
  destruct x as [| |ops ms]; try discriminate.
  destruct (traverse (operator_at h) ops) as [os|] eqn:Eo; [|discriminate].
  destruct (traverse (measurement_at h) ms) as [mps|] eqn:Em;
    [|discriminate].
  rewrite (traverse_extends _ (operator_at h') _ _
             (fun r o => operator_at_extends h h' r o He) Eo).
  rewrite (traverse_extends _ (measurement_at h') _ _
             (fun r m => measurement_at_extends h h' r m He) Em).
  trivial.
Qed.

End Frame.

(** ** The batch transform *)

Section Batch.

Variable adjoint : Operation -> option Operation.

Lemma folding_branches qs adjs :
  forall st t v,
    read_tape (heap st) t = Some v ->
    traverse adjoint (tv_operations v) = Some adjs ->
    exists tapes st',
      map_M (fun scale =>
               single_tape_transform
                 (fun t => unitary_folding adjoint t scale) t)
            (fins qs) st
      = Ok (tapes, st') /\
      extends (heap st) (heap st') /\
      queue st' = queue st /\
      Forall (fun t' => length (heap st) <= t')%nat tapes /\
      Forall2 (fun t' q =>
                 read_tape (heap st') t'
                 = Some (folded_tape adjs (fold_count q) v))
              tapes qs.
Proof.
  induction qs as [|q qs IH]; intros st t v Hv Ha.
  - exists [], st. cbn. repeat split; try constructor.
    apply extends_refl.
  - destruct (unitary_folding_tape adjoint st t v q adjs Hv (or_intror Ha))
      as (t1 & st1 & E1 & X1 & Q1 & F1 & R1).
    destruct (IH st1 t v (read_tape_extends _ _ _ _ X1 Hv) Ha)
      as (ts & st2 & E2 & X2 & Q2 & F2 & R2).
    exists (t1 :: ts), st2.
    cbn [fins map map_M]. unfold bind at 1. rewrite E1.
    unfold bind at 1. unfold fins in E2. rewrite E2. cbn [ret].
    split; [reflexivity|].
    split; [eapply extends_trans; eassumption|].
    split; [congruence|].
    split.
    + constructor; [assumption|].
      eapply Forall_impl; [|exact F2]. cbv beta. intros t' Ht'.
      destruct X1 as [l El]. rewrite El, length_app in Ht'. lia.
    + constructor; [|assumption].
      eapply read_tape_extends; eassumption.
Qed.

Lemma zne_folding qs adjs st t v :
  read_tape (heap st) t = Some v ->
  traverse adjoint (tv_operations v) = Some adjs ->
  exists tapes st',
    zne t (unitary_folding adjoint) (fins qs) st
    = Ok ((tapes, fit_zne (fins qs)), st') /\
    extends (heap st) (heap st') /\
    queue st' = queue st /\
    Forall (fun t' => length (heap st) <= t')%nat tapes /\
    Forall2 (fun t' q =>
               read_tape (heap st') t'
               = Some (folded_tape adjs (fold_count q) v))
            tapes qs.
Proof.
  intros Hv Ha.
  destruct (folding_branches qs adjs st t v Hv Ha)
    as (ts & st' & E & X & Q & F & R).
  exists ts, st'. unfold zne, bind. rewrite E.
  repeat split; assumption.
Qed.

(** The batch transform stops at the first scale factor that folds, on a
    tape that holds an operation without adjoint. *)
Lemma zne_undefined (qs : list Q) (q : Q) (rest : list num) :
  Forall (fun q' => fold_count q' = 0%nat) qs ->
  (1 <= fold_count q)%nat ->
  forall st t v,
    read_tape (heap st) t = Some v ->
    traverse adjoint (tv_operations v) = None ->
    zne t (unitary_folding adjoint) (fins qs ++ Fin q :: rest) st
    = Raise AdjointUndefinedError.
Proof.
  intros Hqs Hq st t v Hv Ha. unfold zne. unfold bind at 1.
  enough (E : map_M (fun scale =>
                       single_tape_transform
                         (fun t0 => unitary_folding adjoint t0 scale) t)
                    (fins qs ++ Fin q :: rest) st
              = Raise AdjointUndefinedError)
    by (rewrite E; reflexivity).
  revert st Hv. induction Hqs as [|q' qs Hq' _ IH]; intros st Hv.
  - cbn [fins map app map_M]. unfold bind at 1.
    now rewrite (folding_transform_undefined adjoint st t v q Hv Ha Hq).
  - destruct (unitary_folding_tape adjoint st t v q' [] Hv (or_introl Hq'))
      as (t1 & st1 & E1 & X1 & _).
    cbn [fins map app map_M]. unfold bind at 1. rewrite E1.
    unfold bind at 1. unfold fins in IH.
    now rewrite (IH st1 (read_tape_extends _ _ _ _ X1 Hv)).
Qed.

(** The batch transform stops at a scale factor that is not finite. *)
Lemma zne_stops (qs : list Q) (adjs : list Operation) (s : num)
      (rest : list num) (e : exn) :
  to_int (math.round ((s - Fin 1) / Fin 2)%num) = Raise e ->
  forall st t v,
    read_tape (heap st) t = Some v ->
    traverse adjoint (tv_operations v) = Some adjs ->
    zne t (unitary_folding adjoint) (fins qs ++ s :: rest) st = Raise e.
Proof.
  intros Hs st t v Hv Ha. unfold zne. unfold bind at 1.
  enough (E : map_M (fun scale =>
                       single_tape_transform
                         (fun t0 => unitary_folding adjoint t0 scale) t)
                    (fins qs ++ s :: rest) st = Raise e)
    by (rewrite E; reflexivity).
  revert st Hv. induction qs as [|q qs IH]; intros st Hv.
  - cbn [fins map app map_M]. unfold bind at 1.
    now rewrite (folding_transform_stops adjoint st t v s e Hv Hs).
  - destruct (unitary_folding_tape adjoint st t v q adjs Hv (or_intror Ha))
      as (t1 & st1 & E1 & X1 & _).
    cbn [fins map app map_M]. unfold bind at 1. rewrite E1.
    unfold bind at 1. unfold fins in IH.
    now rewrite (IH st1 (read_tape_extends _ _ _ _ X1 Hv)).
Qed.

End Batch.

(** ** The arities the combination function takes *)

Section Arity.



End Arity.

(** ** Pipelines *)

Section Pipeline.

Local Open Scope M_scope.

Lemma bind_assoc {A B C} (m : M A) (f : A -> M B) (g : B -> M C) st :
  bind (bind m f) g st = bind m (fun a => bind (f a) g) st.
Proof.
  unfold bind. destruct (m st) as [[a st1]|e]; reflexivity.
Qed.

Lemma bind_ret_r {A} (m : M A) st : bind m ret st = m st.
Proof.
  unfold bind, ret. destruct (m st) as [[a st1]|e]; reflexivity.
Qed.

Lemma bind_ext {A B} (m : M A) (k k' : A -> M B) st :
  (forall a st1, k a st1 = k' a st1) -> bind m k st = bind m k' st.
Proof.
  intros H. unfold bind. destruct (m st) as [[a st1]|e];
    [apply H | reflexivity].
Qed.

Lemma nested_innermost (outer : list transform) (t1 : transform) tape st :
  nested (outer ++ [t1]) tape st = bind (t1 tape) (nested outer) st.
Proof.
  revert st. induction outer as [|tk outer IH]; intros st.
  - cbn [app nested]. unfold bind at 1. cbn [ret].
    symmetry. apply bind_ret_r.
  - cbn [app nested].
    transitivity (bind (bind (t1 tape) (nested outer)) tk st).
    + unfold bind at 1 3. now rewrite IH.
    + apply bind_assoc.
Qed.

Lemma pipeline_nested (ts : list transform) :
  forall tape st, pipeline ts tape st = nested (rev ts) tape st.
Proof.
  induction ts as [|t ts IH]; intros tape st; [reflexivity|].
  cbn [pipeline rev]. rewrite nested_innermost.
  apply bind_ext. exact IH.
Qed.

End Pipeline.

(** ** The Qiskit pass writes the instructions of the DAG it is given *)

Section QiskitPass.

Import Qiskit.

Lemma visit_no_rx angle dag st :
  Forall (fun node => exists i, nth_error st node = Some i /\
                                Qiskit.name i <> "rx"%string) dag ->
  OverrotateRX.visit angle dag st = Ok st.
Proof.
  induction 1 as [|node dag (i & Hi & Hn) _ IH]; [reflexivity|].
  cbn [OverrotateRX.visit]. rewrite Hi.
  apply String.eqb_neq in Hn. now rewrite Hn.
Qed.

Lemma run_no_rx angle dag st :
  Forall (fun node => exists i, nth_error st node = Some i /\
                                Qiskit.name i <> "rx"%string) dag ->
  OverrotateRX.run angle dag st = Ok (dag, st).
Proof.
  intros H. unfold OverrotateRX.run. now rewrite visit_no_rx.
Qed.

End QiskitPass.

(** * The claims *)

(** ** The combination function [fit_zne] *)

(** C1, as amended.  For every non-empty list of scale factors whose
    elements are all identical and every list of energies of the same
    length, [fit_zne] raises nothing: the denominator
    [N * sum (s_i ^ 2) - (sum s_i) ^ 2] is zero, so is the numerator, and the
    function returns the [NaN] of their quotient. *)
Theorem fit_zne_identical_scales (s e : list Q) :
  s <> [] -> all_identical s -> length e = length s ->
  denominator_of s e == 0 /\ fit_zne (fins s) (fins e) = Ok NaN.
Proof.
  intros Hs Hall Hlen.
  destruct (identical_singular s e Hall Hlen) as [Hden Hnum].
  split; [exact Hden|]. now apply fit_zne_singular.
Qed.

Lemma all_identical_222 : all_identical [2; 2; 2].
Proof.
  intros x y Hx Hy. simpl in Hx, Hy.
  destruct Hx as [<-|[<-|[<-|[]]]]; destruct Hy as [<-|[<-|[<-|[]]]];
    reflexivity.
Defined.

(** The scale factors [[2, 2, 2]] with the energies [[1, 2, 3]]. *)
Lemma fit_zne_identical_scales_witness :
  denominator_of [2; 2; 2] [1; 2; 3] == 0 /\
  fit_zne (fins [2; 2; 2]) (fins [1; 2; 3]) = Ok NaN.
Proof.
  apply fit_zne_identical_scales;
    [discriminate | exact all_identical_222 | reflexivity].
Defined.

(** C1, as stated, fails: with the scale factors [[2, 2, 2]] the function
    returns [NaN] and raises no [DegenerateFitError]. *)
Lemma fit_zne_identical_scales_no_error :
  all_identical [2; 2; 2] /\
  length [1; 2; 3] = length [2; 2; 2] /\
  fit_zne (fins [2; 2; 2]) (fins [1; 2; 3]) = Ok NaN /\
  fit_zne (fins [2; 2; 2]) (fins [1; 2; 3]) <> Raise DegenerateFitError /\
  raised (fit_zne (fins [2; 2; 2]) (fins [1; 2; 3])) = false.
Proof.
  split; [exact all_identical_222|].
  split; [reflexivity|].
  split; [reflexivity|].
  split; [discriminate | reflexivity].
Qed.





Lemma not_identical_135 : ~ all_identical [1; 3; 5].
Proof.
  intros H.
  specialize (H 1 3 (or_introl eq_refl) (or_intror (or_introl eq_refl))).
  discriminate H.
Defined.


(** ** Unitary folding *)

(** C3.  With the scale factor [3.0], [num_folds] is
    [round((3.0 - 1.0) / 2.0) = 1], and folding the tape [[RX(0.3), CNOT]]
    gives the operations
    [[RX(0.3), CNOT, adjoint CNOT, adjoint RX(0.3), RX(0.3), CNOT]] followed
    by the measurements of the input, the two adjoints being what
    [op.adjoint()] returns for the two operations. *)
Theorem unitary_folding_scale_three
        (adjoint : Operation -> option Operation) (st : state) (t : ref)
        (w c tg : nat) (ms : list MeasurementProcess)
        (rx_adjoint cnot_adjoint : Operation) :
  read_tape (heap st) t
  = Some (mkTapeValue [mkOp "RX" [w] [Fin (3 # 10)]; mkOp "CNOT" [c; tg] []]
                      ms) ->
  adjoint (mkOp "RX" [w] [Fin (3 # 10)]) = Some rx_adjoint ->
  adjoint (mkOp "CNOT" [c; tg] []) = Some cnot_adjoint ->
  math.round ((Fin 3 - Fin 1) / Fin 2)%num = Fin 1 /\
  to_int (math.round ((Fin 3 - Fin 1) / Fin 2)%num) = Ok 1%Z /\
  exists t' st',
    single_tape_transform (fun tape => unitary_folding adjoint tape (Fin 3))
                          t st
    = Ok (t', st') /\
    read_tape (heap st') t'
    = Some (mkTapeValue
              [mkOp "RX" [w] [Fin (3 # 10)];
               mkOp "CNOT" [c; tg] [];
               cnot_adjoint;
               rx_adjoint;
               mkOp "RX" [w] [Fin (3 # 10)];
               mkOp "CNOT" [c; tg] []]
              ms).
Proof.
  intros Hv Hrx Hcnot. split; [reflexivity|]. split; [reflexivity|].
  assert (Ha : traverse adjoint
                        (tv_operations
                           (mkTapeValue [mkOp "RX" [w] [Fin (3 # 10)];
                                         mkOp "CNOT" [c; tg] []] ms))
               = Some [rx_adjoint; cnot_adjoint])
    by (cbn [tv_operations traverse]; now rewrite Hrx, Hcnot).
  destruct (unitary_folding_tape adjoint st t _ 3 _ Hv (or_intror Ha))
    as (t' & st' & E & _ & _ & _ & R).
  exists t', st'. split; assumption.
Qed.

(** The tape [[RX(0.3), CNOT]] on the wires 0 and 1, measured in
    expectation, with the adjoints of the library: [RX(-0.3)] and
    [CNOT]. *)
Lemma unitary_folding_scale_three_witness :
  exists t' st',
    single_tape_transform
      (fun tape => unitary_folding Example.adjoint tape (Fin 3))
      Example.tape Example.circuit
    = Ok (t', st') /\
    read_tape (heap st') t'
    = Some (mkTapeValue
              [Example.rx; Example.cnot;
               Example.cnot; mkOp "RX" [0%nat] [Fin (- (3 # 10))];
               Example.rx; Example.cnot]
              [Example.expval]).
Proof.
  exact (proj2 (proj2 (unitary_folding_scale_three
                         Example.adjoint Example.circuit Example.tape
                         0 0 1 [Example.expval] _ _
                         eq_refl eq_refl eq_refl))).
Defined.



(** ** Measurements and unmatched operations *)

Lemma well_formed_ready (o : Operation) :
  well_formed o = true -> cnot_ready o /\ rx_ready o.
Proof.
  unfold well_formed, cnot_ready, rx_ready. intros H. split; intros E.
  - rewrite E in H. cbn in H. apply andb_prop in H. destruct H as [H _].
    apply Nat.eqb_eq in H. lia.
  - rewrite E in H. cbn in H. apply andb_prop in H. destruct H as [H1 H2].
    apply Nat.eqb_eq in H1. apply Nat.eqb_eq in H2. lia.
Qed.

Lemma well_formed_cnot_ready (os : list Operation) :
  Forall (fun o => well_formed o = true) os -> Forall cnot_ready os.
Proof.
  apply Forall_impl. intros o H. now apply well_formed_ready.
Qed.

Lemma well_formed_rx_ready (os : list Operation) :
  Forall (fun o => well_formed o = true) os -> Forall rx_ready os.
Proof.
  apply Forall_impl. intros o H. now apply well_formed_ready.
Qed.

(** C5.  The tape that unitary folding returns, for any scale factor, and
    the tape that the CNOT conversion returns have the measurements of the
    input tape, in the same order.  Unitary folding returns a tape for
    every finite scale factor when [op.adjoint()] is defined on every
    operation of the input; on a tape that holds an operation without
    adjoint, a scale factor that folds makes it raise
    [AdjointUndefinedError], and there is no tape to compare. *)
Theorem transforms_preserve_measurements
        (adjoint : Operation -> option Operation) (st : state) (t : ref)
        (v : tape_value) :
  read_tape (heap st) t = Some v ->
  (forall (s : num) t' st',
      single_tape_transform
        (fun tape => unitary_folding adjoint tape s) t st
      = Ok (t', st') ->
      exists v',
        read_tape (heap st') t' = Some v' /\
        tv_measurements v' = tv_measurements v) /\
  (forall adjs : list Operation,
      traverse adjoint (tv_operations v) = Some adjs ->
      forall s : Q,
        exists t' st' v',
          single_tape_transform
            (fun tape => unitary_folding adjoint tape (Fin s)) t st
          = Ok (t', st') /\
          read_tape (heap st') t' = Some v' /\
          tv_measurements v' = tv_measurements v) /\
  (traverse adjoint (tv_operations v) = None ->
   forall s : Q,
     (1 <= fold_count s)%nat ->
     single_tape_transform
       (fun tape => unitary_folding adjoint tape (Fin s)) t st
     = Raise AdjointUndefinedError) /\
  (Forall (fun o => well_formed o = true) (tv_operations v) ->
   exists t' st' v',
     single_tape_transform convert_cnots t st = Ok (t', st') /\
     read_tape (heap st') t' = Some v' /\
     tv_measurements v' = tv_measurements v).
Proof.
  intros Hv. split; [|split; [|split]].
  - intros s t' st' E. destruct s as [q| | |].
    + assert (Hcase : exists adjs,
                 fold_count q = 0%nat
                 \/ traverse adjoint (tv_operations v) = Some adjs).
      { destruct (folding_transform_returns adjoint st t v q t' st' Hv E)
          as [Hk | [adjs Ha]]; [exists []; now left | exists adjs; now right]. }
      destruct Hcase as [adjs Hcase].
      destruct (unitary_folding_tape adjoint st t v q adjs Hv Hcase)
        as (t1 & st1 & E1 & _ & _ & _ & R).
      rewrite E in E1. injection E1 as <- <-.
      exists (folded_tape adjs (fold_count q) v). split; [exact R|].
      reflexivity.
    + now rewrite (folding_transform_stops adjoint st t v PInf OverflowError)
        in E.
    + now rewrite (folding_transform_stops adjoint st t v NInf OverflowError)
        in E.
    + now rewrite (folding_transform_stops adjoint st t v NaN ValueError)
        in E.
  - intros adjs Ha s.
    destruct (unitary_folding_tape adjoint st t v s adjs Hv (or_intror Ha))
      as (t' & st' & E & _ & _ & _ & R).
    exists t', st', (folded_tape adjs (fold_count s) v).
    repeat split; assumption.
  - intros Ha s Hs. now apply folding_transform_undefined with v.
  - intros Hwf.
    pose proof (convert_cnots_emits _ _ _ Hv (well_formed_cnot_ready _ Hwf))
      as He.
    destruct (rewritten_tape _ _ _ _ _ He st (extends_refl _))
      as (t' & st' & E & _ & _ & _ & R).
    exists t', st', (mkTapeValue (flat_map cnot_to_cz (tv_operations v))
                                 (tv_measurements v)).
    repeat split; assumption.
Qed.

(** On the tape [[RX(0.3), CNOT]] with one expectation value. *)
Lemma transforms_preserve_measurements_witness :
  (forall s : Q,
      exists t' st' v',
        single_tape_transform
          (fun tape => unitary_folding Example.adjoint tape (Fin s))
          Example.tape Example.circuit
        = Ok (t', st') /\
        read_tape (heap st') t' = Some v' /\
        tv_measurements v' = [Example.expval]) /\
  (exists t' st' v',
      single_tape_transform convert_cnots Example.tape Example.circuit
      = Ok (t', st') /\
      read_tape (heap st') t' = Some v' /\
      tv_measurements v' = [Example.expval]).
Proof.
  destruct (transforms_preserve_measurements
              Example.adjoint Example.circuit Example.tape Example.value
              eq_refl) as (_ & Folding & _ & Cnots).
  split; [exact (Folding Example.adjoints eq_refl)|].
  apply Cnots. repeat constructor.
Defined.

(** C6.  On a tape with no operation named [CNOT] the CNOT conversion
    returns a tape equal to the input, operation for operation; so do the
    overrotation and the square root of the angles on a tape with no
    operation named [RX]. *)
Theorem unmatched_operations_pass_through
        (st : state) (t : ref) (v : tape_value) :
  read_tape (heap st) t = Some v ->
  (Forall (fun o => name o <> "CNOT"%string) (tv_operations v) ->
   exists t' st',
     single_tape_transform convert_cnots t st = Ok (t', st') /\
     read_tape (heap st') t' = Some v) /\
  (Forall (fun o => name o <> "RX"%string) (tv_operations v) ->
   (forall epsilon : num,
       exists t' st',
         single_tape_transform (fun tape => overrotate_rx tape epsilon) t st
         = Ok (t', st') /\
         read_tape (heap st') t' = Some v) /\
   (forall sqrt : num -> num,
       exists t' st',
         single_tape_transform (square_root_rx sqrt) t st = Ok (t', st') /\
         read_tape (heap st') t' = Some v)).
Proof.
  intros Hv. split.
  - intros Hno.
    assert (Hready : Forall cnot_ready (tv_operations v)).
    { eapply Forall_impl; [|exact Hno]. intros o Ho E. contradiction. }
    pose proof (convert_cnots_emits _ _ _ Hv Hready) as He.
    rewrite (cnot_to_cz_other _ Hno) in He.
    destruct (rewritten_tape _ _ _ _ _ He st (extends_refl _))
      as (t' & st' & E & _ & _ & _ & R).
    exists t', st'. split; [assumption|]. now destruct v.
  - intros Hno.
    assert (Hready : Forall rx_ready (tv_operations v)).
    { eapply Forall_impl; [|exact Hno]. intros o Ho E. contradiction. }
    split.
    + intros epsilon.
      pose proof (overrotate_rx_emits _ _ _ epsilon Hv Hready) as He.
      rewrite (overrotated_other _ _ Hno) in He.
      destruct (rewritten_tape _ (fun tape => overrotate_rx tape epsilon)
                               _ _ _ He st (extends_refl _))
        as (t' & st' & E & _ & _ & _ & R).
      exists t', st'. split; [assumption|]. now destruct v.
    + intros sqrt.
      pose proof (square_root_rx_emits sqrt _ _ _ Hv Hready) as He.
      rewrite (rx_rewritten_other _ _ Hno) in He.
      destruct (rewritten_tape _ (square_root_rx sqrt)
                               _ _ _ He st (extends_refl _))
        as (t' & st' & E & _ & _ & _ & R).
      exists t', st'. split; [assumption|]. now destruct v.
Qed.

(** On the tape [[Hadamard, RY(0.1)]], which has neither [CNOT] nor
    [RX]. *)
Lemma unmatched_operations_pass_through_witness :
  (exists t' st',
      single_tape_transform convert_cnots Example.tape Example.plain_circuit
      = Ok (t', st') /\
      read_tape (heap st') t' = Some Example.plain_value) /\
  (exists t' st',
      single_tape_transform
        (fun tape => overrotate_rx tape (Fin (1 # 10)))
        Example.tape Example.plain_circuit
      = Ok (t', st') /\
      read_tape (heap st') t' = Some Example.plain_value).
Proof.
  destruct (unmatched_operations_pass_through
              Example.plain_circuit Example.tape Example.plain_value eq_refl)
    as [Cnot Rx].
  split.
  - apply Cnot. repeat constructor; discriminate.
  - apply Rx. repeat constructor; discriminate.
Defined.

(** ** The batch transform [zne] *)




(** ** Pipelines *)

(** C7.  Applying the pipeline [[t1, t2]] to a tape is [t2 (t1 tape)], and
    applying [[t1, ..., tk]] is [tk (... t2 (t1 tape) ...)]. *)
Theorem pipeline_is_composition :
  (forall (t1 t2 : transform) (tape : ref) (st : state),
      pipeline [t1; t2] tape st = bind (t1 tape) t2 st) /\
  (forall (ts : list transform) (tape : ref) (st : state),
      pipeline ts tape st = nested (rev ts) tape st).
Proof.
  split.
  - intros t1 t2 tape st. cbn [pipeline].
    apply bind_ext. intros tape' st1. apply bind_ret_r.
  - exact pipeline_nested.
Qed.

(** The pipeline of the CNOT conversion and then the overrotation, on the
    tape of the transforms notebook. *)
Example pipeline_convert_then_overrotate :
  match pipeline [single_tape_transform convert_cnots;
                  single_tape_transform
                    (fun tape => overrotate_rx tape (Fin (1 # 10)))]
                 4%nat Example.cnots_circuit
  with
  | Ok (t', st') => read_tape (heap st') t'
  | Raise _ => None
  end
  = Some (mkTapeValue
            [mkOp "Hadamard" [1%nat] []; mkOp "CZ" [0%nat; 1%nat] [];
             mkOp "Hadamard" [1%nat] [];
             mkOp "RX" [0%nat] [Fin ((1 # 10) + (1 # 10))];
             mkOp "Hadamard" [2%nat] []; mkOp "CZ" [1%nat; 2%nat] [];
             mkOp "Hadamard" [2%nat] []]
            [Example.expval]).
Proof. reflexivity. Qed.

(** ** Inputs are not written *)

Lemma branches_new {A} (f : ref -> A -> M unit) (t : ref) (xs : list A) :
  (forall t x, grows (f t x)) ->
  forall st tapes st',
    map_M (fun x => single_tape_transform (fun tape => f tape x) t) xs st
    = Ok (tapes, st') ->
    extends (heap st) (heap st') /\
    Forall (fun t' => length (heap st) <= t')%nat tapes.
Proof.
  intros Hf. induction xs as [|x xs IH]; intros st tapes st' E.
  - injection E as <- <-. split; [apply extends_refl | constructor].
  - cbn [map_M] in E. unfold bind at 1 in E.
    destruct (single_tape_transform (fun tape => f tape x) t st)
      as [[t1 st1]|e] eqn:E1; [|discriminate].
    unfold bind at 1 in E.
    destruct (map_M _ xs st1) as [[ts st2]|e] eqn:E2; [|discriminate].
    injection E as <- <-.
    destruct (single_tape_transform_new _ _ _ _ _ (Hf t x) E1)
      as (X1 & _ & F1 & _).
    destruct (IH _ _ _ E2) as (X2 & F2).
    split; [eapply extends_trans; eassumption|].
    constructor; [assumption|].
    eapply Forall_impl; [|exact F2]. cbv beta. intros t' Ht'.
    destruct X1 as [l El]. rewrite El, length_app in Ht'. lia.
Qed.

Lemma read_tape_in_heap h t v : read_tape h t = Some v -> (t < length h)%nat.
Proof.
  unfold read_tape. intros H. apply nth_error_Some.
  destruct (nth_error h t); [discriminate | discriminate H].
Qed.

(** C8, as amended.  Unitary folding, the overrotation [overrotate_rx], the
    CNOT conversion and the batch transform [zne] write no object: after a
    call that returns, every object that was on the heap is there as it
    was, so the input tape reads as before, operation for operation and
    parameter for parameter; and the tapes returned are new objects. *)
Theorem transforms_leave_their_input
        (adjoint : Operation -> option Operation) (st : state) (t : ref)
        (v : tape_value) :
  read_tape (heap st) t = Some v ->
  (forall (s : num) t' st',
      single_tape_transform (fun tape => unitary_folding adjoint tape s) t st
      = Ok (t', st') ->
      extends (heap st) (heap st') /\
      read_tape (heap st') t = Some v /\ t' <> t) /\
  (forall (epsilon : num) t' st',
      single_tape_transform (fun tape => overrotate_rx tape epsilon) t st
      = Ok (t', st') ->
      extends (heap st) (heap st') /\
      read_tape (heap st') t = Some v /\ t' <> t) /\
  (forall t' st',
      single_tape_transform convert_cnots t st = Ok (t', st') ->
      extends (heap st) (heap st') /\
      read_tape (heap st') t = Some v /\ t' <> t) /\
  (forall (scale_factors : list num) tapes processing_fn st',
      zne t (unitary_folding adjoint) scale_factors st
      = Ok ((tapes, processing_fn), st') ->
      extends (heap st) (heap st') /\
      read_tape (heap st') t = Some v /\ ~ In t tapes).
Proof.
  intros Hv. pose proof (read_tape_in_heap _ _ _ Hv) as Ht.
  assert (One : forall f t' st',
             grows (f t) ->
             single_tape_transform f t st = Ok (t', st') ->
             extends (heap st) (heap st') /\
             read_tape (heap st') t = Some v /\ t' <> t).
  { intros f t' st' Hf E.
    destruct (single_tape_transform_new _ _ _ _ _ Hf E) as (X & _ & F & _).
    split; [assumption|].
    split; [eapply read_tape_extends; eassumption | lia]. }
  split; [|split; [|split]].
  - intros s t' st' E.
    exact (One (fun tape => unitary_folding adjoint tape s) t' st'
               (grows_unitary_folding adjoint t s) E).
  - intros epsilon t' st' E.
    exact (One (fun tape => overrotate_rx tape epsilon) t' st'
               (grows_overrotate_rx t epsilon) E).
  - intros t' st' E.
    exact (One convert_cnots t' st' (grows_convert_cnots t) E).
  - intros scale_factors tapes processing_fn st' E.
    pose proof (grows_zne t (unitary_folding adjoint) scale_factors
                          (grows_unitary_folding adjoint) _ _ _ E) as X.
    split; [exact X|].
    split; [eapply read_tape_extends; eassumption|].
    unfold zne, bind in E.
    destruct (map_M _ scale_factors st) as [[ts st1]|e] eqn:E1;
      [|discriminate].
    injection E as <- _ <-.
    destruct (branches_new (unitary_folding adjoint) t scale_factors
                           (grows_unitary_folding adjoint) _ _ _ E1)
      as [_ F].
    intros Hin. rewrite Forall_forall in F. specialize (F t Hin). lia.
Qed.

(** On the tape [[RX(0.3), CNOT]] with one expectation value, each of the
    four transforms returns, and leaves the tape as it was. *)
Lemma transforms_leave_their_input_witness :
  (exists t' st',
      single_tape_transform
        (fun tape => unitary_folding Example.adjoint tape (Fin 3))
        Example.tape Example.circuit
      = Ok (t', st') /\
      read_tape (heap st') Example.tape = Some Example.value /\
      t' <> Example.tape) /\
  (exists t' st',
      single_tape_transform
        (fun tape => overrotate_rx tape (Fin (1 # 10)))
        Example.tape Example.circuit
      = Ok (t', st') /\
      read_tape (heap st') Example.tape = Some Example.value /\
      t' <> Example.tape) /\
  (exists t' st',
      single_tape_transform convert_cnots Example.tape Example.circuit
      = Ok (t', st') /\
      read_tape (heap st') Example.tape = Some Example.value /\
      t' <> Example.tape) /\
  (exists tapes processing_fn st',
      zne Example.tape (unitary_folding Example.adjoint) (fins [1; 3; 5])
          Example.circuit
      = Ok ((tapes, processing_fn), st') /\
      read_tape (heap st') Example.tape = Some Example.value /\
      ~ In Example.tape tapes).
Proof.
  destruct (transforms_leave_their_input
              Example.adjoint Example.circuit Example.tape Example.value
              eq_refl) as (Folding & Overrotation & Conversion & Batch).
  split; [|split; [|split]].
  - destruct (single_tape_transform
                (fun tape => unitary_folding Example.adjoint tape (Fin 3))
                Example.tape Example.circuit) as [[t' st']|e] eqn:E.
    + exists t', st'. split; [reflexivity|]. exact (proj2 (Folding _ _ _ E)).
    + vm_compute in E. discriminate E.
  - destruct (single_tape_transform
                (fun tape => overrotate_rx tape (Fin (1 # 10)))
                Example.tape Example.circuit) as [[t' st']|e] eqn:E.
    + exists t', st'. split; [reflexivity|].
      exact (proj2 (Overrotation _ _ _ E)).
    + vm_compute in E. discriminate E.
  - destruct (single_tape_transform convert_cnots
                Example.tape Example.circuit) as [[t' st']|e] eqn:E.
    + exists t', st'. split; [reflexivity|].
      exact (proj2 (Conversion _ _ eq_refl)).
    + vm_compute in E. discriminate E.
  - destruct (zne_folding Example.adjoint [1; 3; 5] Example.adjoints
                          Example.circuit Example.tape Example.value
                          eq_refl eq_refl)
      as (tapes & st' & E & _).
    exists tapes, (fit_zne (fins [1; 3; 5])), st'.
    split; [exact E|]. exact (proj2 (Batch _ _ _ _ E)).
Defined.

(** C8, as stated, fails: the pass [OverrotateRX] of the comparison
    notebook returns the DAG it was given, and the [rx] instruction of that
    DAG has a new angle after the call. *)
Lemma overrotate_rx_pass_writes_its_input :
  exists st',
    OverrotateRX.run (Fin (1 # 10)) Example.dag Example.subroutine
    = Ok (Example.dag, st') /\
    nth_error Example.subroutine 0
    = Some (Qiskit.mkInstruction "rx" [Fin (3 # 10)] [0%nat]) /\
    nth_error st' 0
    = Some (Qiskit.mkInstruction "rx" [Fin ((3 # 10) + (1 # 10))] [0%nat]) /\
    Qiskit.read_dag st' Example.dag
    <> Qiskit.read_dag Example.subroutine Example.dag.
Proof.
  eexists. split; [reflexivity|].
  split; [reflexivity|]. split; [reflexivity|].
  intros H. vm_compute in H. discriminate H.
Qed.

(** * Further properties of the notebooks' code *)

(** ** [fit_zne]: errors, special values, broadcasting *)

Section FitZneEdges.

Local Open Scope Q_scope.

Lemma sum_from_nan (l : list num) : fold_left num_add l NaN = NaN.
Proof. induction l as [|x l IH]; [reflexivity | exact IH]. Qed.

Lemma sum_with_nan (l : list num) (a : num) :
  In NaN l -> fold_left num_add l a = NaN.
Proof.
  revert a. induction l as [|x l IH]; intros a H; [destruct H|].
  destruct H as [-> | H]; cbn [fold_left].
  - replace (num_add a NaN) with NaN by (destruct a; reflexivity).
    apply sum_from_nan.
  - now apply IH.
Qed.

Lemma num_mul_nan_r (x : num) : num_mul x NaN = NaN.
Proof. destruct x; reflexivity. Qed.

Lemma num_sub_nan_r (x : num) : num_sub x NaN = NaN.
Proof. destruct x; reflexivity. Qed.

Lemma stack_ok (l : list num) : l <> [] -> math.stack l = Ok l.
Proof. destruct l; [congruence | reflexivity]. Qed.

Lemma Qsum_scaled (c : Q) (l : list Q) :
  Qsum (map (Qmult c) l) == c * Qsum l.
Proof.
  induction l as [|x l IH].
  - simpl. rewrite Qsum_nil. ring.
  - cbn [map]. rewrite !Qsum_cons, IH. ring.
Qed.

Lemma Qsum_scaled_r (c : Q) (l : list Q) :
  Qsum (map (fun x => x * c) l) == Qsum l * c.
Proof.
  induction l as [|x l IH].
  - simpl. rewrite Qsum_nil. ring.
  - cbn [map]. rewrite !Qsum_cons, IH. ring.
Qed.

Lemma Qlen_two (l : list Q) : (2 <= length l)%nat -> 2 <= Qlen l.
Proof.
  intros H. unfold Qlen. change 2 with (inject_Z 2).
  rewrite <- Zle_Qle. lia.
Qed.

End FitZneEdges.

(** X1.  [fit_zne] raises exactly when a list is empty or when the two
    lengths differ and neither is one; the exception is then a
    [ValueError].  On all other inputs, special values included, it
    returns. *)
Theorem fit_zne_raises_exactly (s e : list num) :
  (s = [] \/ e = [] \/
   (length s <> length e /\ length s <> 1%nat /\ length e <> 1%nat) ->
   fit_zne s e = Raise ValueError) /\
  (s <> [] -> e <> [] ->
   (length s = length e \/ length s = 1%nat \/ length e = 1%nat) ->
   exists x, fit_zne s e = Ok x).
Proof.
  split.
  - intros [-> | [-> | (Hne & Hs & He)]].
    + reflexivity.
    + destruct s; reflexivity.
    + unfold fit_zne, math.multiply.
      destruct s as [|s1 [|s2 s']]; [reflexivity | simpl in Hs; congruence|].
      destruct e as [|e1 [|e2 e']]; [reflexivity | simpl in He; congruence|].
      cbn [math.stack obind].
      destruct (Nat.eqb (length (s1 :: s2 :: s')) (length (e1 :: e2 :: e')))
        eqn:E; [apply Nat.eqb_eq in E; congruence | reflexivity].
  - intros Hs He Hlen. unfold fit_zne, math.multiply.
    rewrite (stack_ok s Hs), (stack_ok e He). cbn [obind].
    destruct (Nat.eqb (length s) (length e)) eqn:E.
    + cbn [obind]. eexists. reflexivity.
    + apply Nat.eqb_neq in E.
      destruct Hlen as [H | [H | H]]; [congruence| |].
      * destruct s as [|s1 [|s2 s']]; try discriminate H.
        cbn [obind]. eexists. reflexivity.
      * destruct e as [|e1 [|e2 e']]; try discriminate H.
        destruct s as [|s1 [|s2 s']]; [congruence | simpl in E; congruence|].
        cbn [obind]. eexists. reflexivity.
Qed.

(** Two scale factors against three energies; two against two. *)
Lemma fit_zne_raises_exactly_witness :
  fit_zne [Fin 1; Fin 3] [Fin 1; Fin 2; Fin 3] = Raise ValueError /\
  exists x, fit_zne [Fin 1; Fin 3] [Fin 1; Fin 2] = Ok x.
Proof.
  split.
  - apply (proj1 (fit_zne_raises_exactly
                    [Fin 1; Fin 3] [Fin 1; Fin 2; Fin 3])).
    right. right. repeat split; discriminate.
  - apply (proj2 (fit_zne_raises_exactly [Fin 1; Fin 3] [Fin 1; Fin 2]));
      [discriminate | discriminate | left; reflexivity].
Defined.

(** X2.  A [NaN] among the scale factors or among the energies is never
    caught: whenever [fit_zne] returns on such lists, it returns [NaN]. *)
Theorem fit_zne_propagates_nan (s e : list num) (x : num) :
  In NaN s \/ In NaN e -> fit_zne s e = Ok x -> x = NaN.
Proof.
  intros Hnan. unfold fit_zne.
  destruct (math.stack s) as [s0|] eqn:Es; [|discriminate].
  destruct (math.stack e) as [e0|] eqn:Ee; [|discriminate].
  assert (s0 = s) by (destruct s; [discriminate | now injection Es]).
  assert (e0 = e) by (destruct e; [discriminate | now injection Ee]).
  subst. cbn [obind].
  destruct (math.multiply s e) as [products|]; [|discriminate].
  cbn [obind]. intros [= <-].
  destruct Hnan as [H | H].
  - assert (Hs : math.sum s = NaN) by (apply sum_with_nan; exact H).
    rewrite Hs, num_mul_nan_r, num_sub_nan_r. reflexivity.
  - assert (He : math.sum e = NaN) by (apply sum_with_nan; exact H).
    rewrite He. reflexivity.
Qed.

Lemma fit_zne_propagates_nan_witness :
  fit_zne [Fin 1; Fin 3; Fin 5] [Fin 7; NaN; Fin 15] = Ok NaN.
Proof.
  destruct (fit_zne [Fin 1; Fin 3; Fin 5] [Fin 7; NaN; Fin 15])
    as [x|err] eqn:E.
  - f_equal.
    apply (fit_zne_propagates_nan [Fin 1; Fin 3; Fin 5] [Fin 7; NaN; Fin 15]
             x (or_intror (or_intror (or_introl eq_refl))) E).
  - vm_compute in E. discriminate E.
Defined.

(** ** [fit_zne]: the fit as a function of the points *)

Section FitZnePoints.

Local Open Scope Q_scope.

Lemma Qsum_permutation (l l' : list Q) :
  Permutation l l' -> Qsum l == Qsum l'.
Proof.
  induction 1 as [|x l l' _ IH|x y l|l l' l'' _ IH1 _ IH2].
  - reflexivity.
  - rewrite !Qsum_cons, IH. reflexivity.
  - rewrite !Qsum_cons. ring.
  - now rewrite IH1.
Qed.

Lemma Qzip_pairs (ps : list (Q * Q)) :
  Qzip Qmult (scales_of ps) (energies_of ps)
  = map (fun p => fst p * snd p) ps.
Proof.
  induction ps as [|[x y] ps IH]; [reflexivity|].
  cbn. f_equal. exact IH.
Qed.

Lemma length_pairs (ps : list (Q * Q)) :
  length (energies_of ps) = length (scales_of ps).
Proof. unfold energies_of, scales_of. now rewrite !length_map. Qed.

Lemma ols_intercept_permutation (ps ps' : list (Q * Q)) :
  Permutation ps ps' ->
  ~ all_identical (scales_of ps) ->
  ols_intercept (scales_of ps) (energies_of ps)
  == ols_intercept (scales_of ps') (energies_of ps').
Proof.
  intros Hp Hnot.
  assert (Hnot' : ~ all_identical (scales_of ps')).
  { intros Hall. apply Hnot. intros x y Hx Hy. apply Hall.
    - eapply Permutation_in; [|exact Hx]. now apply Permutation_map.
    - eapply Permutation_in; [|exact Hy]. now apply Permutation_map. }
  pose proof (denominator_nonzero _ _ (length_pairs ps) Hnot) as Hd.
  pose proof (denominator_nonzero _ _ (length_pairs ps') Hnot') as Hd'.
  pose proof (Qlen_pos _ (not_identical_nonempty _ Hnot)) as HN.
  assert (EN : Qlen (energies_of ps') = Qlen (energies_of ps)).
  { apply Qlen_eq. unfold energies_of. rewrite !length_map.
    symmetry. now apply Permutation_length. }
  assert (ENs : Qlen (scales_of ps) = Qlen (energies_of ps))
    by (apply Qlen_eq; symmetry; apply length_pairs).
  assert (E1 : Qsum (scales_of ps') == Qsum (scales_of ps))
    by (apply Qsum_permutation, Permutation_map; now symmetry).
  assert (E2 : Qsum (energies_of ps') == Qsum (energies_of ps))
    by (apply Qsum_permutation, Permutation_map; now symmetry).
  assert (E3 : Qsum (map Qsq (scales_of ps'))
               == Qsum (map Qsq (scales_of ps)))
    by (apply Qsum_permutation; do 2 apply Permutation_map; now symmetry).
  assert (E4 : Qsum (Qzip Qmult (scales_of ps') (energies_of ps'))
               == Qsum (Qzip Qmult (scales_of ps) (energies_of ps)))
    by (rewrite !Qzip_pairs; apply Qsum_permutation, Permutation_map;
        now symmetry).
  unfold ols_intercept, ols_slope, numerator_of, denominator_of in *.
  rewrite EN in *. rewrite E1, E2, E3, E4 in *.
  reflexivity.
Qed.

End FitZnePoints.

(** X4.  The fit does not depend on the order of the points: listing the
    pairs (scale factor, energy) in another order gives the same
    intercept. *)
Theorem fit_zne_order_of_points (ps ps' : list (Q * Q)) :
  Permutation ps ps' ->
  ~ all_identical (scales_of ps) ->
  exists q q',
    fit_zne (fins (scales_of ps)) (fins (energies_of ps)) = Ok (Fin q) /\
    fit_zne (fins (scales_of ps')) (fins (energies_of ps')) = Ok (Fin q') /\
    q == q'.
Proof.
  intros Hp Hnot.
  assert (Hnot' : ~ all_identical (scales_of ps')).
  { intros Hall. apply Hnot. intros x y Hx Hy. apply Hall.
    - eapply Permutation_in; [|exact Hx]. now apply Permutation_map.
    - eapply Permutation_in; [|exact Hy]. now apply Permutation_map. }
  exists (ols_intercept (scales_of ps) (energies_of ps)),
         (ols_intercept (scales_of ps') (energies_of ps')).
  split; [|split].
  - apply fit_zne_regular;
      [now apply not_identical_nonempty | apply length_pairs|].
    apply denominator_nonzero; [apply length_pairs | assumption].
  - apply fit_zne_regular;
      [now apply not_identical_nonempty | apply length_pairs|].
    apply denominator_nonzero; [apply length_pairs | assumption].
  - now apply ols_intercept_permutation.
Qed.

Lemma fit_zne_order_of_points_witness :
  exists q q',
    fit_zne (fins [1; 3; 5]) (fins [7; 11; 16]) = Ok (Fin q) /\
    fit_zne (fins [5; 1; 3]) (fins [16; 7; 11]) = Ok (Fin q') /\
    q == q'.
Proof.
  apply (fit_zne_order_of_points [(1, 7); (3, 11); (5, 16)]
                                 [(5, 16); (1, 7); (3, 11)]).
  - apply Permutation_sym.
    apply (Permutation_cons_app [(1, 7); (3, 11)] [] (5, 16)).
    rewrite app_nil_r. apply Permutation_refl.
  - exact not_identical_135.
Defined.

(** X5.  With two distinct scale factors the fit is the line through the
    two points, and [fit_zne] returns its value at zero:
    [(s2 * e1 - s1 * e2) / (s2 - s1)], the sums and products of the fit
    being computed exactly (numbers as exact rationals: no rounding, no
    overflow). *)
Theorem fit_zne_two_points (s1 s2 e1 e2 : Q) :
  ~ s1 == s2 ->
  exists q,
    fit_zne (fins [s1; s2]) (fins [e1; e2]) = Ok (Fin q) /\
    q == (s2 * e1 - s1 * e2) / (s2 - s1).
Proof.
  intros Hne.
  assert (Hnot : ~ all_identical [s1; s2]).
  { intros H. apply Hne. apply H; simpl; auto. }
  exists (ols_intercept [s1; s2] [e1; e2]). split.
  - apply fit_zne_regular; [discriminate | reflexivity|].
    apply denominator_nonzero; [reflexivity | assumption].
  - pose proof (denominator_nonzero [s1; s2] [e1; e2] eq_refl Hnot) as Hd.
    unfold ols_intercept, ols_slope, numerator_of, denominator_of in *.
    change (Qlen [e1; e2]) with 2 in *. cbn [Qzip map] in *.
    rewrite !Qsum_cons, !Qsum_nil in *. unfold Qsq in *.
    field. split; [lra|]. intros H. apply Hd. lra.
Qed.

Lemma fit_zne_two_points_witness :
  exists q,
    fit_zne (fins [1; 3]) (fins [7; 11]) = Ok (Fin q) /\
    q == (3 * 7 - 1 * 11) / (3 - 1).
Proof.
  apply fit_zne_two_points. discriminate.
Defined.

(** ** [fit_zne]: what broadcasting lets through *)

Section Broadcasting.

Local Open Scope Q_scope.

Lemma map_mul_fins_l (c : Q) (e : list Q) :
  map (fun y => num_mul (Fin c) y) (fins e) = fins (map (Qmult c) e).
Proof. unfold fins. rewrite !map_map. reflexivity. Qed.

Lemma map_mul_fins_r (c : Q) (s : list Q) :
  map (fun x => num_mul x (Fin c)) (fins s) = fins (map (fun x => x * c) s).
Proof. unfold fins. rewrite !map_map. reflexivity. Qed.

Lemma multiply_one_scale (c : Q) (e : list Q) :
  (2 <= length e)%nat ->
  math.multiply (fins [c]) (fins e) = Ok (fins (map (Qmult c) e)).
Proof.
  intros Hlen. unfold math.multiply. rewrite !length_fins.
  destruct (Nat.eqb (length [c]) (length e)) eqn:E.
  { apply Nat.eqb_eq in E. simpl in E. lia. }
  cbn [fins map]. fold (fins e). now rewrite map_mul_fins_l.
Qed.

Lemma multiply_one_energy (s : list Q) (e : Q) :
  (2 <= length s)%nat ->
  math.multiply (fins s) (fins [e]) = Ok (fins (map (fun x => x * e) s)).
Proof.
  intros Hlen. unfold math.multiply. rewrite !length_fins.
  destruct (Nat.eqb (length s) (length [e])) eqn:E.
  { apply Nat.eqb_eq in E. simpl in E. lia. }
  rewrite <- map_mul_fins_r.
  destruct s as [|s1 [|s2 s']]; [simpl in Hlen; lia | simpl in Hlen; lia|].
  reflexivity.
Qed.

(** One scale factor against several energies. *)
Lemma fit_zne_one_scale (c : Q) (e : list Q) :
  (2 <= length e)%nat ->
  fit_zne (fins [c]) (fins e)
  = Ok ((Fin (Qsum e)
         - Fin (Qlen e * Qsum (map (Qmult c) e) - Qsum [c] * Qsum e)
           / Fin (Qlen e * Qsum (map Qsq [c]) - Qsq (Qsum [c]))
           * Fin (Qsum [c]))
        / Fin (Qlen e))%num.
Proof.
  intros Hlen. unfold fit_zne.
  assert (He : e <> []) by (intros ->; simpl in Hlen; lia).
  assert (Hc : [c] <> []) by discriminate.
  rewrite (stack_fins e He), (stack_fins [c] Hc). cbn [obind].
  rewrite (multiply_one_scale c e Hlen). cbn [obind].
  rewrite !sum_fins, map_sq_fins, sum_fins, length_fins. reflexivity.
Qed.

(** Several scale factors against one energy. *)
Lemma fit_zne_one_energy (s : list Q) (e : Q) :
  (2 <= length s)%nat ->
  fit_zne (fins s) (fins [e])
  = Ok ((Fin (Qsum [e])
         - Fin (Qlen [e] * Qsum (map (fun x => (x * e)%Q) s)
                - Qsum s * Qsum [e])
           / Fin (Qlen [e] * Qsum (map Qsq s) - Qsq (Qsum s))
           * Fin (Qsum s))
        / Fin (Qlen [e]))%num.
Proof.
  intros Hlen. unfold fit_zne.
  assert (Hs : s <> []) by (intros ->; simpl in Hlen; lia).
  assert (He : [e] <> []) by discriminate.
  rewrite (stack_fins s Hs), (stack_fins [e] He). cbn [obind].
  rewrite (multiply_one_energy s e Hlen). cbn [obind].
  rewrite !sum_fins, map_sq_fins, sum_fins, length_fins. reflexivity.
Qed.

End Broadcasting.

(** X6.  One scale factor is broadcast against two or more energies, and
    nothing is raised; the sums and products of the fit being computed
    exactly (numbers as exact rationals: no rounding, no overflow), the
    value [fit_zne] returns for a scale factor other than zero is zero,
    whatever the energies are. *)
Theorem fit_zne_single_scale_factor (c : Q) (e : list Q) :
  ~ c == 0 -> (2 <= length e)%nat ->
  exists q, fit_zne (fins [c]) (fins e) = Ok (Fin q) /\ q == 0.
Proof.
  intros Hc Hlen. rewrite (fit_zne_one_scale c e Hlen).
  pose proof (Qlen_two e Hlen) as HN.
  pose proof (Qsum_scaled c e) as Hsum.
  assert (S1 : Qsum [c] == c) by (unfold Qsum; simpl; ring).
  assert (S2 : Qsum (map Qsq [c]) == c * c)
    by (unfold Qsum, Qsq; simpl; ring).
  assert (Hd : ~ Qlen e * Qsum (map Qsq [c]) - Qsq (Qsum [c]) == 0).
  { rewrite S1, S2. unfold Qsq. intros H.
    assert (K : (Qlen e - 1) * (c * c) == 0) by lra.
    apply Qmult_integral in K. destruct K as [K | K]; [lra|].
    apply Qmult_integral in K. tauto. }
  unfold num_div at 2. rewrite (Qeq_bool_false _ Hd).
  cbn [num_mul num_sub num_opp num_add]. unfold num_div.
  rewrite Qeq_bool_false by lra.
  eexists. split; [reflexivity|].
  rewrite S1, S2, Hsum in *. unfold Qsq in *.
  field. split; [exact Hd | lra].
Qed.

Lemma fit_zne_single_scale_factor_witness :
  exists q, fit_zne (fins [3]) (fins [7; 11; 15]) = Ok (Fin q) /\ q == 0.
Proof.
  apply fit_zne_single_scale_factor; [discriminate | simpl; lia].
Defined.

(** X7.  One energy is broadcast against two or more scale factors, and
    nothing is raised; the sums and products of the fit being computed
    exactly (numbers as exact rationals: no rounding, no overflow),
    [fit_zne] returns that energy, or [NaN] when the sum of the squares of
    the scale factors is the square of their sum. *)
Theorem fit_zne_single_energy (s : list Q) (e : Q) :
  (2 <= length s)%nat ->
  (~ Qsum (map Qsq s) == Qsq (Qsum s) ->
   exists q, fit_zne (fins s) (fins [e]) = Ok (Fin q) /\ q == e) /\
  (Qsum (map Qsq s) == Qsq (Qsum s) ->
   fit_zne (fins s) (fins [e]) = Ok NaN).
Proof.
  intros Hlen. rewrite (fit_zne_one_energy s e Hlen).
  pose proof (Qsum_scaled_r e s) as Hsum.
  change (Qlen [e]) with 1.
  assert (Hn : 1 * Qsum (map (fun x => x * e) s) - Qsum s * Qsum [e] == 0).
  { rewrite Hsum. unfold Qsum at 3. cbn [fold_left]. ring. }
  split.
  - intros Hne.
    assert (Hd : ~ 1 * Qsum (map Qsq s) - Qsq (Qsum s) == 0)
      by (intros H; apply Hne; lra).
    unfold num_div at 2. rewrite (Qeq_bool_false _ Hd).
    cbn [num_mul num_sub num_opp num_add]. unfold num_div.
    rewrite Qeq_bool_false by lra.
    eexists. split; [reflexivity|].
    rewrite Hn. unfold Qsum at 1. cbn [fold_left].
    field. intros H. apply Hd. lra.
  - intros He.
    assert (Hd : 1 * Qsum (map Qsq s) - Qsq (Qsum s) == 0) by lra.
    unfold num_div at 2.
    rewrite (Qeq_bool_true _ Hd), (Qsign_zero _ Hn). reflexivity.
Qed.

Lemma fit_zne_single_energy_witness :
  (exists q, fit_zne (fins [1; 3; 5]) (fins [2]) = Ok (Fin q) /\ q == 2) /\
  fit_zne (fins [1; 0; 0]) (fins [2]) = Ok NaN.
Proof.
  split.
  - apply (fit_zne_single_energy [1; 3; 5] 2); [simpl; lia | discriminate].
  - apply (fit_zne_single_energy [1; 0; 0] 2); [simpl; lia | reflexivity].
Defined.

Section Rescaling.

Local Open Scope Q_scope.

Lemma Qsum_sq_scaled (c : Q) (s : list Q) :
  Qsum (map Qsq (map (Qmult c) s)) == c * c * Qsum (map Qsq s).
Proof.
  induction s as [|x s IH].
  - simpl. rewrite Qsum_nil. ring.
  - cbn [map]. rewrite !Qsum_cons, IH. unfold Qsq. ring.
Qed.

Lemma Qsum_zip_scaled (c : Q) (s e : list Q) :
  Qsum (Qzip Qmult (map (Qmult c) s) e) == c * Qsum (Qzip Qmult s e).
Proof.
  revert e. induction s as [|x s IH]; intros [|y e]; cbn [map Qzip];
    try (rewrite Qsum_nil; ring).
  rewrite !Qsum_cons, IH. ring.
Qed.

Lemma rescaled_not_identical (c : Q) (s : list Q) :
  ~ c == 0 -> ~ all_identical s -> ~ all_identical (map (Qmult c) s).
Proof.
  intros Hc Hnot Hall. apply Hnot. intros x y Hx Hy.
  assert (E : c * x == c * y)
    by (apply Hall; apply in_map; assumption).
  assert (K : c * (x - y) == 0) by lra.
  apply Qmult_integral in K. destruct K; [contradiction | lra].
Qed.

Lemma ols_intercept_rescaled (c : Q) (s e : list Q) :
  ~ c == 0 -> ~ all_identical s -> length e = length s ->
  ols_intercept (map (Qmult c) s) e == ols_intercept s e.
Proof.
  intros Hc Hnot Hlen.
  assert (Hlen' : length e = length (map (Qmult c) s))
    by (now rewrite length_map).
  pose proof (denominator_nonzero s e Hlen Hnot) as Hd.
  pose proof (denominator_nonzero _ e Hlen'
                (rescaled_not_identical c s Hc Hnot)) as Hd'.
  assert (He : e <> []).
  { pose proof (not_identical_nonempty s Hnot).
    destruct e, s; simpl in *; congruence. }
  pose proof (Qlen_pos e He) as HN.
  unfold ols_intercept, ols_slope, numerator_of, denominator_of in *.
  rewrite Qsum_sq_scaled, Qsum_zip_scaled, (Qsum_scaled c s) in *.
  unfold Qsq in *.
  field. repeat split; try lra; try assumption.
Qed.

End Rescaling.

(** X8.  The unit of the scale factors does not matter: multiplying every
    scale factor by the same number, other than zero, gives the same
    intercept. *)
Theorem fit_zne_rescaled_scale_factors (c : Q) (s e : list Q) :
  ~ c == 0 -> ~ all_identical s -> length e = length s ->
  exists q q',
    fit_zne (fins (map (Qmult c) s)) (fins e) = Ok (Fin q) /\
    fit_zne (fins s) (fins e) = Ok (Fin q') /\
    q == q'.
Proof.
  intros Hc Hnot Hlen.
  pose proof (rescaled_not_identical c s Hc Hnot) as Hnot'.
  assert (Hlen' : length e = length (map (Qmult c) s))
    by (now rewrite length_map).
  exists (ols_intercept (map (Qmult c) s) e), (ols_intercept s e).
  split; [|split].
  - apply fit_zne_regular;
      [now apply not_identical_nonempty | assumption|].
    now apply denominator_nonzero.
  - apply fit_zne_regular;
      [now apply not_identical_nonempty | assumption|].
    now apply denominator_nonzero.
  - now apply ols_intercept_rescaled.
Qed.

Lemma fit_zne_rescaled_scale_factors_witness :
  exists q q',
    fit_zne (fins (map (Qmult 2) [1; 3; 5])) (fins [7; 11; 16]) = Ok (Fin q) /\
    fit_zne (fins [1; 3; 5]) (fins [7; 11; 16]) = Ok (Fin q') /\
    q == q'.
Proof.
  apply fit_zne_rescaled_scale_factors;
    [discriminate | exact not_identical_135 | reflexivity].
Defined.

(** ** Unitary folding: the fold count and the folded circuit *)

Section FoldCount.

Local Open Scope Q_scope.

Lemma Qfloor_unique (q : Q) (z : Z) :
  inject_Z z <= q -> q < inject_Z (z + 1) -> Qfloor q = z.
Proof.
  intros Hle Hlt.
  pose proof (Qfloor_le q) as F1. pose proof (Qlt_floor q) as F2.
  assert (A : (z < Qfloor q + 1)%Z) by (rewrite Zlt_Qlt; lra).
  assert (B : (Qfloor q < z + 1)%Z) by (rewrite Zlt_Qlt; lra).
  lia.
Qed.

Lemma Qround_half_even_near (q : Q) (z : Z) :
  inject_Z z - (1 # 2) < q -> q < inject_Z z + (1 # 2) ->
  Qround_half_even q = z.
Proof.
  intros Hlo Hhi. unfold Qround_half_even.
  destruct (Qlt_le_dec q (inject_Z z)) as [Hlt | Hge].
  - assert (F : Qfloor q = (z - 1)%Z).
    { apply Qfloor_unique.
      - unfold Z.sub. rewrite inject_Z_plus.
        change (inject_Z (- (1))) with (-1). lra.
      - replace (z - 1 + 1)%Z with z by lia. exact Hlt. }
    rewrite F.
    assert (C : (1 # 2) < q - inject_Z (z - 1)).
    { unfold Z.sub. rewrite inject_Z_plus.
      change (inject_Z (- (1))) with (-1). lra. }
    apply Qgt_alt in C. rewrite C. lia.
  - assert (F : Qfloor q = z).
    { apply Qfloor_unique; [exact Hge|].
      rewrite inject_Z_plus. change (inject_Z 1) with 1. lra. }
    rewrite F.
    assert (C : q - inject_Z z < (1 # 2)) by lra.
    rewrite Qlt_alt in C. now rewrite C.
Qed.

Lemma Qround_half_even_tie (q : Q) (z : Z) :
  q == inject_Z z + (1 # 2) ->
  Qround_half_even q = if Z.even z then z else (z + 1)%Z.
Proof.
  intros Hq. unfold Qround_half_even.
  assert (F : Qfloor q = z).
  { apply Qfloor_unique; [lra|].
    rewrite inject_Z_plus. change (inject_Z 1) with 1. lra. }
  rewrite F.
  assert (C : q - inject_Z z == (1 # 2)) by lra.
  rewrite Qeq_alt in C. now rewrite C.
Qed.

Lemma Qround_half_even_low (q : Q) :
  q <= (1 # 2) -> (Qround_half_even q <= 0)%Z.
Proof.
  intros Hq. unfold Qround_half_even.
  pose proof (Qfloor_le q) as F1.
  assert (F : (Qfloor q <= 0)%Z).
  { assert (A : (Qfloor q < 1)%Z)
      by (rewrite Zlt_Qlt; change (inject_Z 1) with 1; lra).
    lia. }
  destruct (q - inject_Z (Qfloor q) ?= 1 # 2) eqn:C.
  - destruct (Z.even (Qfloor q)) eqn:E; [exact F|].
    assert (Qfloor q <> 0%Z) by (intros H0; rewrite H0 in E; discriminate).
    lia.
  - exact F.
  - apply Qgt_alt in C.
    assert (Qfloor q <> 0%Z).
    { intros H0. rewrite H0 in C. change (inject_Z 0) with 0 in C. lra. }
    lia.
Qed.

End FoldCount.

Section FoldCountFacts.

Local Open Scope Q_scope.

Lemma fold_count_near (s : Q) (k : nat) :
  inject_Z (2 * Z.of_nat k) < s -> s < inject_Z (2 * Z.of_nat k + 2) ->
  fold_count s = k.
Proof.
  intros Hlo Hhi. unfold fold_count.
  assert (E : (s - 1) / 2 == (1 # 2) * s - (1 # 2)) by field.
  rewrite (Qround_half_even_near _ (Z.of_nat k)); [apply Nat2Z.id| |].
  - rewrite E. rewrite inject_Z_mult in Hlo.
    change (inject_Z 2) with 2 in Hlo. lra.
  - rewrite E. rewrite inject_Z_plus, inject_Z_mult in Hhi.
    change (inject_Z 2) with 2 in Hhi. lra.
Qed.

Lemma fold_count_low (s : Q) : s <= 2 -> fold_count s = 0%nat.
Proof.
  intros Hs. unfold fold_count.
  assert (E : (s - 1) / 2 == (1 # 2) * s - (1 # 2)) by field.
  assert (H : (Qround_half_even ((s - 1) / 2) <= 0)%Z)
    by (apply Qround_half_even_low; rewrite E; lra).
  destruct (Qround_half_even ((s - 1) / 2)); try reflexivity. lia.
Qed.

Lemma fold_count_tie (s : Q) (k : nat) :
  s == inject_Z (4 * Z.of_nat k) \/ s == inject_Z (4 * Z.of_nat k + 2) ->
  fold_count s = (2 * k)%nat.
Proof.
  intros Hs. unfold fold_count.
  assert (E : Z.to_nat (2 * Z.of_nat k) = (2 * k)%nat) by lia.
  destruct Hs as [Hs | Hs].
  - rewrite (Qround_half_even_tie _ (2 * Z.of_nat k - 1)).
    + replace (Z.even (2 * Z.of_nat k - 1)) with false.
      * replace (2 * Z.of_nat k - 1 + 1)%Z with (2 * Z.of_nat k)%Z by lia.
        exact E.
      * symmetry. rewrite Z.sub_1_r, Z.even_pred, Z.odd_mul. reflexivity.
    + rewrite Hs. unfold Z.sub.
      rewrite inject_Z_plus, !inject_Z_mult.
      change (inject_Z 4) with 4. change (inject_Z 2) with 2.
      change (inject_Z (- (1))) with (-1). field.
  - rewrite (Qround_half_even_tie _ (2 * Z.of_nat k)).
    + rewrite Z.even_mul. exact E.
    + rewrite Hs. rewrite inject_Z_plus, !inject_Z_mult.
      change (inject_Z 4) with 4. change (inject_Z 2) with 2. field.
Qed.

End FoldCountFacts.

Section FoldedCircuits.

Lemma length_folded (adjs : list Operation) (k : nat)
      (ops : list Operation) :
  length adjs = length ops ->
  length (folded adjs k ops) = (2 * k * length ops)%nat.
Proof.
  intros Hlen. induction k as [|k IH]; [reflexivity|].
  cbn [folded]. rewrite !length_app, length_rev, Hlen, IH. lia.
Qed.

End FoldedCircuits.

(** X9.  On a tape whose operations all have an adjoint, unitary folding
    rounds the scale factor to an odd number of copies of the circuit: a
    scale factor strictly between [2 k] and [2 k + 2] folds [k] times; a
    scale factor of at most 2 does not fold; and an even scale factor, the
    tie of the rounding, goes to the even number of folds next to it:
    [2 k] and [2 k + 2] fold [k] times when [k] is even (4 folds twice, as
    5 does, and not once, as 3 does). *)
Theorem unitary_folding_rounds_scale_factor
        (adjoint : Operation -> option Operation) (st : state) (t : ref)
        (v : tape_value) (adjs : list Operation) (s : Q) (k : nat) :
  read_tape (heap st) t = Some v ->
  traverse adjoint (tv_operations v) = Some adjs ->
  (k = 0%nat /\ s <= 2) \/
  (inject_Z (2 * Z.of_nat k) < s /\ s < inject_Z (2 * Z.of_nat k + 2)) \/
  (Nat.even k = true /\
   (s == inject_Z (2 * Z.of_nat k) \/ s == inject_Z (2 * Z.of_nat k + 2))) ->
  exists t' st',
    single_tape_transform
      (fun tape => unitary_folding adjoint tape (Fin s)) t st
    = Ok (t', st') /\
    read_tape (heap st') t' = Some (folded_tape adjs k v).
Proof.
  intros Hv Ha Hs.
  destruct (unitary_folding_tape adjoint st t v s adjs Hv (or_intror Ha))
    as (t' & st' & E & _ & _ & _ & R).
  exists t', st'. split; [exact E|]. rewrite R. f_equal. f_equal.
  destruct Hs as [[-> Hs] | [[Hlo Hhi] | [Hk Hs]]].
  - now apply fold_count_low.
  - now apply fold_count_near.
  - apply Nat.even_spec in Hk. destruct Hk as [j ->].
    apply fold_count_tie.
    replace (4 * Z.of_nat j)%Z with (2 * Z.of_nat (2 * j))%Z by lia.
    exact Hs.
Qed.

(** The scale factor 4 on the tape [[RX(0.3), CNOT]]: two folds. *)
Lemma unitary_folding_rounds_scale_factor_witness :
  exists t' st',
    single_tape_transform
      (fun tape => unitary_folding Example.adjoint tape (Fin 4))
      Example.tape Example.circuit
    = Ok (t', st') /\
    read_tape (heap st') t'
    = Some (folded_tape Example.adjoints 2 Example.value).
Proof.
  apply (unitary_folding_rounds_scale_factor
           Example.adjoint Example.circuit Example.tape Example.value
           Example.adjoints 4 2);
    [reflexivity | reflexivity|].
  right. right. split; [reflexivity|]. left. reflexivity.
Defined.

(** X10.  On a tape whose operations all have an adjoint, for every finite
    scale factor the tape unitary folding returns begins with the
    operations of the input, and the number of its operations is an odd
    multiple of theirs: [2 k + 1] times as many, [k] being the number of
    folds. *)
Theorem unitary_folding_operation_count
        (adjoint : Operation -> option Operation) (st : state) (t : ref)
        (v : tape_value) (adjs : list Operation) (s : Q) :
  read_tape (heap st) t = Some v ->
  traverse adjoint (tv_operations v) = Some adjs ->
  exists t' st' v',
    single_tape_transform
      (fun tape => unitary_folding adjoint tape (Fin s)) t st
    = Ok (t', st') /\
    read_tape (heap st') t' = Some v' /\
    firstn (length (tv_operations v)) (tv_operations v') = tv_operations v /\
    length (tv_operations v')
    = ((2 * fold_count s + 1) * length (tv_operations v))%nat.
Proof.
  intros Hv Ha.
  destruct (unitary_folding_tape adjoint st t v s adjs Hv (or_intror Ha))
    as (t' & st' & E & _ & _ & _ & R).
  exists t', st', (folded_tape adjs (fold_count s) v).
  split; [exact E|]. split; [exact R|]. cbn [folded_tape tv_operations].
  split.
  - rewrite firstn_app, Nat.sub_diag, firstn_all. cbn [firstn].
    apply app_nil_r.
  - rewrite length_app, length_folded by (eapply traverse_length; eassumption).
    lia.
Qed.

(** The scale factor 4.2 on the tape [[RX(0.3), CNOT]]: ten operations. *)
Lemma unitary_folding_operation_count_witness :
  exists t' st' v',
    single_tape_transform
      (fun tape => unitary_folding Example.adjoint tape (Fin (42 # 10)))
      Example.tape Example.circuit
    = Ok (t', st') /\
    read_tape (heap st') t' = Some v' /\
    firstn 2 (tv_operations v') = [Example.rx; Example.cnot] /\
    length (tv_operations v') = 10%nat.
Proof.
  apply (unitary_folding_operation_count
           Example.adjoint Example.circuit Example.tape Example.value
           Example.adjoints (42 # 10));
    reflexivity.
Defined.

(** X11.  On a scale factor that is not finite unitary folding raises,
    whatever the tape holds: on [NaN] the [ValueError] of [int], on an
    infinity its [OverflowError]; the number of folds is made an integer
    before any adjoint is asked for.  So, on a tape whose operations all
    have an adjoint, [zne] raises a [ValueError] on a list of scale factors
    whose first element that is not finite is a [NaN]: it returns no tape
    at all. *)
Theorem unitary_folding_special_scale_factors
        (adjoint : Operation -> option Operation) (st : state) (t : ref)
        (v : tape_value) :
  read_tape (heap st) t = Some v ->
  single_tape_transform (fun tape => unitary_folding adjoint tape NaN) t st
  = Raise ValueError /\
  single_tape_transform (fun tape => unitary_folding adjoint tape PInf) t st
  = Raise OverflowError /\
  single_tape_transform (fun tape => unitary_folding adjoint tape NInf) t st
  = Raise OverflowError /\
  (forall adjs : list Operation,
      traverse adjoint (tv_operations v) = Some adjs ->
      forall (qs : list Q) (rest : list num),
        zne t (unitary_folding adjoint) (fins qs ++ NaN :: rest) st
        = Raise ValueError).
Proof.
  intros Hv.
  split; [|split; [|split]].
  - now apply (folding_transform_stops adjoint st t v).
  - now apply (folding_transform_stops adjoint st t v).
  - now apply (folding_transform_stops adjoint st t v).
  - intros adjs Ha qs rest.
    now apply (zne_stops adjoint qs adjs NaN rest ValueError) with v.
Qed.

(** On the tape [[RX(0.3), CNOT]]. *)
Lemma unitary_folding_special_scale_factors_witness :
  single_tape_transform
    (fun tape => unitary_folding Example.adjoint tape NaN)
    Example.tape Example.circuit
  = Raise ValueError /\
  single_tape_transform
    (fun tape => unitary_folding Example.adjoint tape PInf)
    Example.tape Example.circuit
  = Raise OverflowError /\
  single_tape_transform
    (fun tape => unitary_folding Example.adjoint tape NInf)
    Example.tape Example.circuit
  = Raise OverflowError /\
  (forall (qs : list Q) (rest : list num),
      zne Example.tape (unitary_folding Example.adjoint)
          (fins qs ++ NaN :: rest) Example.circuit
      = Raise ValueError).
Proof.
  destruct (unitary_folding_special_scale_factors
              Example.adjoint Example.circuit Example.tape Example.value
              eq_refl) as (A & B & C & D).
  split; [exact A|]. split; [exact B|]. split; [exact C|].
  exact (D Example.adjoints eq_refl).
Defined.

(** X22.  On a tape that holds an operation without adjoint, unitary
    folding raises [AdjointUndefinedError] for every finite scale factor
    that folds at least once, and returns a tape of the operations and
    measurements of the input for every finite scale factor that does not
    fold; [zne] raises [AdjointUndefinedError] at the first scale factor
    that folds. *)
Theorem unitary_folding_needs_adjoints
        (adjoint : Operation -> option Operation) (st : state) (t : ref)
        (v : tape_value) :
  read_tape (heap st) t = Some v ->
  traverse adjoint (tv_operations v) = None ->
  (forall s : Q,
      (1 <= fold_count s)%nat ->
      single_tape_transform
        (fun tape => unitary_folding adjoint tape (Fin s)) t st
      = Raise AdjointUndefinedError) /\
  (forall s : Q,
      fold_count s = 0%nat ->
      exists t' st',
        single_tape_transform
          (fun tape => unitary_folding adjoint tape (Fin s)) t st
        = Ok (t', st') /\
        read_tape (heap st') t' = Some v) /\
  (forall (qs : list Q) (q : Q) (rest : list num),
      Forall (fun q' => fold_count q' = 0%nat) qs ->
      (1 <= fold_count q)%nat ->
      zne t (unitary_folding adjoint) (fins qs ++ Fin q :: rest) st
      = Raise AdjointUndefinedError).
Proof.
  intros Hv Ha. split; [|split].
  - intros s Hs. now apply folding_transform_undefined with v.
  - intros s Hk.
    destruct (unitary_folding_tape adjoint st t v s [] Hv (or_introl Hk))
      as (t' & st' & E & _ & _ & _ & R).
    exists t', st'. split; [exact E|]. rewrite R, Hk.
    unfold folded_tape. cbn [folded]. rewrite app_nil_r. now destruct v.
  - intros qs q rest Hqs Hq. now apply zne_undefined with v.
Qed.

(** The tape [[S]]: the scale factor 3 raises, the scale factor 1 returns
    the tape, and the scale factors [[1, 3, 5]] make [zne] raise. *)
Lemma unitary_folding_needs_adjoints_witness :
  single_tape_transform
    (fun tape => unitary_folding Example.adjoint tape (Fin 3))
    2%nat Example.phase_circuit
  = Raise AdjointUndefinedError /\
  (exists t' st',
      single_tape_transform
        (fun tape => unitary_folding Example.adjoint tape (Fin 1))
        2%nat Example.phase_circuit
      = Ok (t', st') /\
      read_tape (heap st') t' = Some Example.phase_value) /\
  zne 2%nat (unitary_folding Example.adjoint) (fins [1] ++ Fin 3 :: [Fin 5])
      Example.phase_circuit
  = Raise AdjointUndefinedError.
Proof.
  destruct (unitary_folding_needs_adjoints
              Example.adjoint Example.phase_circuit 2%nat
              Example.phase_value eq_refl eq_refl) as (A & B & C).
  split; [|split].
  - apply A. vm_compute. lia.
  - apply B. reflexivity.
  - apply C; [repeat constructor | vm_compute; lia].
Defined.

(** ** What a folded circuit stands for *)

Section FoldingDenotation.

Variable G : Type.
Variable one : G.
Variable dot : G -> G -> G.
Variable interp : Operation -> G.
Variable adjoint : Operation -> option Operation.

Hypothesis dot_assoc : forall a b c, dot a (dot b c) = dot (dot a b) c.
Hypothesis dot_one_l : forall a, dot one a = a.
Hypothesis dot_one_r : forall a, dot a one = a.
Hypothesis adjoint_inverse :
  forall o o', adjoint o = Some o' -> dot (interp o) (interp o') = one.

Local Abbreviation den := (denote G one dot interp).

Lemma denote_app (a b : list Operation) :
  den (a ++ b) = dot (den a) (den b).
Proof.
  induction a as [|o a IH]; cbn [app denote fold_right].
  - now rewrite dot_one_l.
  - unfold denote in IH. now rewrite IH, dot_assoc.
Qed.

Lemma denote_adjoints (ops adjs : list Operation) :
  traverse adjoint ops = Some adjs ->
  dot (den ops) (den (rev adjs)) = one.
Proof.
  revert adjs. induction ops as [|o ops IH]; intros adjs Ha;
    cbn [traverse] in Ha.
  - injection Ha as <-. apply dot_one_l.
  - destruct (adjoint o) as [o'|] eqn:Eo; [|discriminate].
    destruct (traverse adjoint ops) as [adjs'|]; [|discriminate].
    injection Ha as <-. cbn [rev]. rewrite denote_app.
    change (den (o :: ops)) with (dot (interp o) (den ops)).
    change (den [o']) with (dot (interp o') one).
    rewrite dot_one_r, <- dot_assoc.
    rewrite (dot_assoc (den ops)), (IH adjs' eq_refl), dot_one_l.
    now apply adjoint_inverse.
Qed.

Lemma denote_folded (k : nat) (ops adjs : list Operation) :
  traverse adjoint ops = Some adjs ->
  dot (den ops) (den (folded adjs k ops)) = den ops.
Proof.
  intros Ha. induction k as [|k IH]; [apply dot_one_r|].
  cbn [folded]. rewrite !denote_app, IH.
  now rewrite dot_assoc, (denote_adjoints ops adjs Ha), dot_one_l.
Qed.

(** X12.  Unitary folding does not change what the circuit stands for:
    on a tape whose operations all have an adjoint, and in every monoid in
    which the adjoint of an operation stands for its inverse, the product
    of the operations of the returned tape is the product of the operations
    of the input, for every finite scale factor. *)
Theorem unitary_folding_preserves_product
        (st : state) (t : ref) (v : tape_value) (adjs : list Operation)
        (s : Q) :
  read_tape (heap st) t = Some v ->
  traverse adjoint (tv_operations v) = Some adjs ->
  exists t' st' v',
    single_tape_transform
      (fun tape => unitary_folding adjoint tape (Fin s)) t st
    = Ok (t', st') /\
    read_tape (heap st') t' = Some v' /\
    denote G one dot interp (tv_operations v')
    = denote G one dot interp (tv_operations v).
Proof.
  intros Hv Ha.
  destruct (unitary_folding_tape adjoint st t v s adjs Hv (or_intror Ha))
    as (t' & st' & E & _ & _ & _ & R).
  exists t', st', (folded_tape adjs (fold_count s) v).
  split; [exact E|]. split; [exact R|]. cbn [folded_tape tv_operations].
  rewrite denote_app. now apply denote_folded.
Qed.

End FoldingDenotation.

Lemma angle_numerator_adjoint (o o' : Operation) :
  Example.adjoint o = Some o' ->
  (angle_numerator o + angle_numerator o')%Z = 0%Z.
Proof.
  unfold angle_numerator, Example.adjoint.
  destruct (String.eqb (name o) "RX" || String.eqb (name o) "RY"
            || String.eqb (name o) "RZ")%bool eqn:E.
  - intros [= <-]. cbn [name data]. rewrite E.
    destruct (data o) as [|[q| | |] ds]; cbn; lia.
  - destruct (String.eqb (name o) "Rot") eqn:Er;
      [intros [= <-]; cbn [name]; now rewrite E|].
    destruct (String.eqb (name o) "SingleExcitation") eqn:Es.
    + intros [= <-]. cbn [name]. now rewrite E.
    + destruct (String.eqb (name o) "PauliX" || String.eqb (name o) "PauliY"
                || String.eqb (name o) "PauliZ"
                || String.eqb (name o) "Hadamard"
                || String.eqb (name o) "CNOT"
                || String.eqb (name o) "CZ")%bool; [|discriminate].
      intros [= <-]. now rewrite E.
Qed.

(** In the integers under addition, a rotation standing for the numerator
    of its angle: the tape [[RX(0.3), CNOT]] folded by the scale factor 3. *)
Lemma unitary_folding_preserves_product_witness :
  exists t' st' v',
    single_tape_transform
      (fun tape => unitary_folding Example.adjoint tape (Fin 3))
      Example.tape Example.circuit
    = Ok (t', st') /\
    read_tape (heap st') t' = Some v' /\
    denote Z 0%Z Z.add angle_numerator (tv_operations v') = 3%Z.
Proof.
  apply (unitary_folding_preserves_product
           Z 0%Z Z.add angle_numerator Example.adjoint
           Z.add_assoc Z.add_0_l Z.add_0_r angle_numerator_adjoint
           Example.circuit Example.tape Example.value Example.adjoints 3);
    reflexivity.
Defined.

(** ** The rewriting transforms: what the returned tape is made of *)

Section RewritingFacts.

Lemma cnot_to_cz_no_cnot (os : list Operation) :
  Forall (fun o => name o <> "CNOT"%string) (flat_map cnot_to_cz os).
Proof.
  induction os as [|o os IH]; [constructor|].
  cbn [flat_map]. apply Forall_app. split; [|exact IH].
  unfold cnot_to_cz. destruct (String.eqb (name o) "CNOT") eqn:E.
  - destruct (wires o) as [|w0 [|w1 ws]]; repeat constructor; discriminate.
  - apply String.eqb_neq in E. repeat constructor. exact E.
Qed.

Lemma cnot_to_cz_length (os : list Operation) :
  Forall cnot_ready os ->
  length (flat_map cnot_to_cz os)
  = (length os + 2 * length (filter (is_named "CNOT") os))%nat.
Proof.
  induction 1 as [|o os Ho _ IH]; [reflexivity|].
  cbn [flat_map filter]. rewrite length_app, IH.
  unfold cnot_to_cz, is_named. destruct (String.eqb (name o) "CNOT") eqn:E.
  - apply String.eqb_eq in E. specialize (Ho E).
    destruct (wires o) as [|w0 [|w1 ws]]; simpl in Ho; try lia.
    cbn [length]. lia.
  - cbn [length]. lia.
Qed.

Lemma cnot_to_cz_twice (os : list Operation) :
  flat_map cnot_to_cz (flat_map cnot_to_cz os) = flat_map cnot_to_cz os.
Proof. apply cnot_to_cz_other, cnot_to_cz_no_cnot. Qed.

Lemma no_cnot_ready (os : list Operation) :
  Forall (fun o => name o <> "CNOT"%string) os -> Forall cnot_ready os.
Proof. apply Forall_impl. intros o Ho E. contradiction. Qed.

(** What the two transforms of the angles return on an operator the
    library can construct: an [RX] with the new angle, any other operator
    as it is. *)
Lemma rx_rewritten_well_formed (f : num -> num) (o : Operation) :
  well_formed o = true ->
  rx_rewritten f o
  = [if String.eqb (name o) "RX"
     then mkOp (name o) (wires o) (map f (data o)) else o].
Proof.
  intros Hwf. unfold rx_rewritten.
  destruct (String.eqb (name o) "RX") eqn:E; [|reflexivity].
  apply String.eqb_eq in E. unfold well_formed in Hwf.
  rewrite E in Hwf |- *. cbn in Hwf.
  apply andb_prop in Hwf. destruct Hwf as [Hw Hd].
  apply Nat.eqb_eq in Hw. apply Nat.eqb_eq in Hd.
  destruct (wires o) as [|w [|w' ws]]; try discriminate Hw.
  destruct (data o) as [|d [|d' ds]]; try discriminate Hd.
  reflexivity.
Qed.

Lemma rx_rewritten_pointwise (f : num -> num) (os : list Operation) :
  Forall (fun o => well_formed o = true) os ->
  Forall2 (fun o o' =>
             name o' = name o /\ wires o' = wires o /\
             data o' = if String.eqb (name o) "RX"
                       then map f (data o) else data o)
          os (flat_map (rx_rewritten f) os).
Proof.
  induction 1 as [|o os Ho _ IH]; [constructor|].
  cbn [flat_map]. rewrite (rx_rewritten_well_formed f o Ho).
  cbn [app]. constructor; [|exact IH].
  destruct (String.eqb (name o) "RX"); repeat split.
Qed.

Lemma rewritings_commute (f : num -> num) (os : list Operation) :
  flat_map (rx_rewritten f) (flat_map cnot_to_cz os)
  = flat_map cnot_to_cz (flat_map (rx_rewritten f) os).
Proof.
  induction os as [|o os IH]; [reflexivity|].
  cbn [flat_map]. rewrite !flat_map_app, IH. f_equal.
  unfold cnot_to_cz at 1. unfold rx_rewritten at 2.
  destruct (String.eqb (name o) "CNOT") eqn:Ec;
    destruct (String.eqb (name o) "RX") eqn:Er.
  - apply String.eqb_eq in Ec. apply String.eqb_eq in Er. congruence.
  - destruct (wires o) as [|w0 [|w1 ws]] eqn:Ew;
      cbn [flat_map app]; unfold cnot_to_cz; rewrite Ec, Ew; reflexivity.
  - destruct (data o) as [|d ds] eqn:Ed;
      [|destruct (wires o) as [|w ws] eqn:Ew];
      cbn [flat_map app]; unfold rx_rewritten; rewrite Er, Ed, ?Ew;
      reflexivity.
  - cbn [flat_map app]. unfold cnot_to_cz, rx_rewritten.
    now rewrite Ec, Er.
Qed.

Lemma cnot_to_cz_rx_ready (os : list Operation) :
  Forall rx_ready os -> Forall rx_ready (flat_map cnot_to_cz os).
Proof.
  induction 1 as [|o os Ho _ IH]; [constructor|].
  cbn [flat_map]. apply Forall_app. split; [|exact IH].
  unfold cnot_to_cz. destruct (String.eqb (name o) "CNOT").
  - destruct (wires o) as [|w0 [|w1 ws]];
      repeat (apply Forall_cons; [intros E; cbn in E; discriminate E|]);
      apply Forall_nil.
  - apply Forall_cons; [exact Ho | apply Forall_nil].
Qed.

Lemma rx_rewritten_cnot_ready (f : num -> num) (os : list Operation) :
  Forall cnot_ready os -> Forall cnot_ready (flat_map (rx_rewritten f) os).
Proof.
  induction 1 as [|o os Ho _ IH]; [constructor|].
  cbn [flat_map]. apply Forall_app. split; [|exact IH].
  unfold rx_rewritten. destruct (String.eqb (name o) "RX").
  - destruct (data o) as [|d ds]; [apply Forall_nil|].
    destruct (wires o) as [|w ws]; [apply Forall_nil|].
    apply Forall_cons; [intros E; cbn in E; discriminate E | apply Forall_nil].
  - apply Forall_cons; [exact Ho | apply Forall_nil].
Qed.

End RewritingFacts.

(** X13.  The tape the CNOT conversion returns has no operation named
    [CNOT], and two operations more than the input for each [CNOT] of the
    input. *)
Theorem convert_cnots_leaves_no_cnot
        (st : state) (t : ref) (v : tape_value) :
  read_tape (heap st) t = Some v ->
  Forall (fun o => well_formed o = true) (tv_operations v) ->
  exists t' st' v',
    single_tape_transform convert_cnots t st = Ok (t', st') /\
    read_tape (heap st') t' = Some v' /\
    Forall (fun o => name o <> "CNOT"%string) (tv_operations v') /\
    length (tv_operations v')
    = (length (tv_operations v)
       + 2 * length (filter (is_named "CNOT") (tv_operations v)))%nat.
Proof.
  intros Hv Hwf.
  pose proof (well_formed_cnot_ready _ Hwf) as Hready.
  pose proof (convert_cnots_emits _ _ _ Hv Hready) as He.
  destruct (rewritten_tape _ _ _ _ _ He st (extends_refl _))
    as (t' & st' & E & _ & _ & _ & R).
  exists t', st', (mkTapeValue (flat_map cnot_to_cz (tv_operations v))
                               (tv_measurements v)).
  split; [exact E|]. split; [exact R|]. cbn [tv_operations]. split.
  - apply cnot_to_cz_no_cnot.
  - now apply cnot_to_cz_length.
Qed.

(** On the tape of the transforms notebook: two [CNOT]s among three
    operations, seven operations in the result. *)
Lemma convert_cnots_leaves_no_cnot_witness :
  exists t' st' v',
    single_tape_transform convert_cnots 4%nat Example.cnots_circuit
    = Ok (t', st') /\
    read_tape (heap st') t' = Some v' /\
    Forall (fun o => name o <> "CNOT"%string) (tv_operations v') /\
    length (tv_operations v') = 7%nat.
Proof.
  apply (convert_cnots_leaves_no_cnot
           Example.cnots_circuit 4%nat
           (mkTapeValue [mkOp "CNOT" [0%nat; 1%nat] [];
                         mkOp "RX" [0%nat] [Fin (1 # 10)];
                         mkOp "CNOT" [1%nat; 2%nat] []]
                        [Example.expval])).
  - reflexivity.
  - repeat constructor.
Defined.

(** X14.  The CNOT conversion is idempotent: applied to the tape it
    returned, it returns a tape of the same operations and measurements. *)
Theorem convert_cnots_idempotent
        (st : state) (t : ref) (v : tape_value) :
  read_tape (heap st) t = Some v ->
  Forall (fun o => well_formed o = true) (tv_operations v) ->
  exists t1 st1 t2 st2 v',
    single_tape_transform convert_cnots t st = Ok (t1, st1) /\
    single_tape_transform convert_cnots t1 st1 = Ok (t2, st2) /\
    read_tape (heap st1) t1 = Some v' /\
    read_tape (heap st2) t2 = Some v'.
Proof.
  intros Hv Hwf.
  pose proof (well_formed_cnot_ready _ Hwf) as Hready.
  pose proof (convert_cnots_emits _ _ _ Hv Hready) as He.
  destruct (rewritten_tape _ _ _ _ _ He st (extends_refl _))
    as (t1 & st1 & E1 & _ & _ & _ & R1).
  pose proof (convert_cnots_emits
                _ _ _ R1 (no_cnot_ready _ (cnot_to_cz_no_cnot _))) as He2.
  cbn [tv_operations tv_measurements] in He2.
  rewrite cnot_to_cz_twice in He2.
  destruct (rewritten_tape _ _ _ _ _ He2 st1 (extends_refl _))
    as (t2 & st2 & E2 & _ & _ & _ & R2).
  exists t1, st1, t2, st2,
         (mkTapeValue (flat_map cnot_to_cz (tv_operations v))
                      (tv_measurements v)).
  repeat split; assumption.
Qed.

(** On the tape of the transforms notebook. *)
Lemma convert_cnots_idempotent_witness :
  exists t1 st1 t2 st2 v',
    single_tape_transform convert_cnots 4%nat Example.cnots_circuit
    = Ok (t1, st1) /\
    single_tape_transform convert_cnots t1 st1 = Ok (t2, st2) /\
    read_tape (heap st1) t1 = Some v' /\
    read_tape (heap st2) t2 = Some v'.
Proof.
  apply (convert_cnots_idempotent
           Example.cnots_circuit 4%nat
           (mkTapeValue [mkOp "CNOT" [0%nat; 1%nat] [];
                         mkOp "RX" [0%nat] [Fin (1 # 10)];
                         mkOp "CNOT" [1%nat; 2%nat] []]
                        [Example.expval])).
  - reflexivity.
  - repeat constructor.
Defined.

Section ConversionDenotation.

Variable G : Type.
Variable one : G.
Variable dot : G -> G -> G.
Variable interp : Operation -> G.

Hypothesis dot_assoc : forall a b c, dot a (dot b c) = dot (dot a b) c.
Hypothesis cnot_as_cz :
  forall c t : nat,
    interp (mkOp "CNOT" [c; t] [])
    = dot (interp (mkOp "Hadamard" [t] []))
          (dot (interp (mkOp "CZ" [c; t] []))
               (interp (mkOp "Hadamard" [t] []))).

Lemma denote_cons (o : Operation) (os : list Operation) :
  denote G one dot interp (o :: os)
  = dot (interp o) (denote G one dot interp os).
Proof. reflexivity. Qed.

Lemma denote_cnot_to_cz (os : list Operation) :
  Forall (fun o => well_formed o = true) os ->
  denote G one dot interp (flat_map cnot_to_cz os)
  = denote G one dot interp os.
Proof.
  induction 1 as [|o os Ho _ IH]; [reflexivity|].
  cbn [flat_map]. unfold cnot_to_cz at 1.
  destruct (String.eqb (name o) "CNOT") eqn:E.
  - apply String.eqb_eq in E. unfold well_formed in Ho.
    rewrite E in Ho. cbn in Ho.
    apply andb_prop in Ho. destruct Ho as [Hw Hd].
    apply Nat.eqb_eq in Hw. apply Nat.eqb_eq in Hd.
    destruct o as [nm ws ds]. cbn [name wires data] in *. subst nm.
    destruct ws as [|c [|t [|w ws]]]; try discriminate Hw.
    destruct ds as [|d ds]; try discriminate Hd.
    cbn [app]. rewrite !denote_cons, IH, cnot_as_cz, <- !dot_assoc.
    reflexivity.
  - cbn [app]. now rewrite !denote_cons, IH.
Qed.

(** X15.  The CNOT conversion does not change what the circuit stands
    for: in every semigroup with a unit in which a [CNOT] stands for the
    product of a Hadamard gate on its target, a [CZ] and a Hadamard gate on
    its target, the product of the operations of the returned tape is the
    product of the operations of the input. *)
Theorem convert_cnots_preserves_product
        (st : state) (t : ref) (v : tape_value) :
  read_tape (heap st) t = Some v ->
  Forall (fun o => well_formed o = true) (tv_operations v) ->
  exists t' st' v',
    single_tape_transform convert_cnots t st = Ok (t', st') /\
    read_tape (heap st') t' = Some v' /\
    denote G one dot interp (tv_operations v')
    = denote G one dot interp (tv_operations v).
Proof.
  intros Hv Hwf.
  pose proof (well_formed_cnot_ready _ Hwf) as Hready.
  pose proof (convert_cnots_emits _ _ _ Hv Hready) as He.
  destruct (rewritten_tape _ _ _ _ _ He st (extends_refl _))
    as (t' & st' & E & _ & _ & _ & R).
  exists t', st', (mkTapeValue (flat_map cnot_to_cz (tv_operations v))
                               (tv_measurements v)).
  split; [exact E|]. split; [exact R|]. cbn [tv_operations].
  now apply denote_cnot_to_cz.
Qed.

End ConversionDenotation.

(** In the natural numbers under addition, the two-qubit gates counted:
    the tape of the transforms notebook, two before and two after. *)
Lemma convert_cnots_preserves_product_witness :
  exists t' st' v',
    single_tape_transform convert_cnots 4%nat Example.cnots_circuit
    = Ok (t', st') /\
    read_tape (heap st') t' = Some v' /\
    denote nat 0%nat Nat.add two_qubit_gates (tv_operations v') = 2%nat.
Proof.
  apply (convert_cnots_preserves_product
           nat 0%nat Nat.add two_qubit_gates Nat.add_assoc
           (fun c t => eq_refl)
           Example.cnots_circuit 4%nat
           (mkTapeValue [mkOp "CNOT" [0%nat; 1%nat] [];
                         mkOp "RX" [0%nat] [Fin (1 # 10)];
                         mkOp "CNOT" [1%nat; 2%nat] []]
                        [Example.expval])).
  - reflexivity.
  - repeat constructor.
Defined.

(** X16.  The overrotation and the square root of the angles return a tape
    with as many operations as the input, each with the name and the wires
    of the operation in its place; the parameters of an [RX] are the angle
    plus [epsilon], or its square root, and the parameters of every other
    operation are as they were. *)
Theorem rx_transforms_keep_the_shape
        (st : state) (t : ref) (v : tape_value) :
  read_tape (heap st) t = Some v ->
  Forall (fun o => well_formed o = true) (tv_operations v) ->
  (forall epsilon : num,
      exists t' st' v',
        single_tape_transform (fun tape => overrotate_rx tape epsilon) t st
        = Ok (t', st') /\
        read_tape (heap st') t' = Some v' /\
        Forall2 (fun o o' =>
                   name o' = name o /\ wires o' = wires o /\
                   data o' = if String.eqb (name o) "RX"
                             then map (fun d => (d + epsilon)%num) (data o)
                             else data o)
                (tv_operations v) (tv_operations v')) /\
  (forall sqrt : num -> num,
      exists t' st' v',
        single_tape_transform (square_root_rx sqrt) t st = Ok (t', st') /\
        read_tape (heap st') t' = Some v' /\
        Forall2 (fun o o' =>
                   name o' = name o /\ wires o' = wires o /\
                   data o' = if String.eqb (name o) "RX"
                             then map sqrt (data o) else data o)
                (tv_operations v) (tv_operations v')).
Proof.
  intros Hv Hwf.
  pose proof (well_formed_rx_ready _ Hwf) as Hready.
  split.
  - intros epsilon.
    pose proof (overrotate_rx_emits _ _ _ epsilon Hv Hready) as He.
    destruct (rewritten_tape _ (fun tape => overrotate_rx tape epsilon)
                             _ _ _ He st (extends_refl _))
      as (t' & st' & E & _ & _ & _ & R).
    exists t', st',
           (mkTapeValue (flat_map (overrotated epsilon) (tv_operations v))
                        (tv_measurements v)).
    split; [exact E|]. split; [exact R|].
    now apply rx_rewritten_pointwise.
  - intros sqrt.
    pose proof (square_root_rx_emits sqrt _ _ _ Hv Hready) as He.
    destruct (rewritten_tape _ (square_root_rx sqrt)
                             _ _ _ He st (extends_refl _))
      as (t' & st' & E & _ & _ & _ & R).
    exists t', st',
           (mkTapeValue (flat_map (rx_rewritten sqrt) (tv_operations v))
                        (tv_measurements v)).
    split; [exact E|]. split; [exact R|].
    now apply rx_rewritten_pointwise.
Qed.

(** On the tape [[RX(0.3), CNOT]], overrotated by 0.1. *)
Lemma rx_transforms_keep_the_shape_witness :
  exists t' st' v',
    single_tape_transform
      (fun tape => overrotate_rx tape (Fin (1 # 10)))
      Example.tape Example.circuit
    = Ok (t', st') /\
    read_tape (heap st') t' = Some v' /\
    Forall2 (fun o o' =>
               name o' = name o /\ wires o' = wires o /\
               data o' = if String.eqb (name o) "RX"
                         then map (fun d => (d + Fin (1 # 10))%num) (data o)
                         else data o)
            [Example.rx; Example.cnot] (tv_operations v').
Proof.
  apply (rx_transforms_keep_the_shape
           Example.circuit Example.tape Example.value).
  - reflexivity.
  - repeat constructor.
Defined.

(** X17.  The CNOT conversion and a transform of the angles can be applied
    in either order: the CNOT conversion and then the overrotation (or the
    square root of the angles) return a tape of the same operations and
    measurements as the overrotation (or the square root) and then the
    CNOT conversion. *)
Theorem convert_cnots_commutes_with_rx_transforms
        (st : state) (t : ref) (v : tape_value) :
  read_tape (heap st) t = Some v ->
  Forall (fun o => well_formed o = true) (tv_operations v) ->
  (forall epsilon : num,
      exists ta sta t1 st1 tb stb t2 st2 v',
        single_tape_transform convert_cnots t st = Ok (ta, sta) /\
        single_tape_transform (fun tape => overrotate_rx tape epsilon) ta sta
        = Ok (t1, st1) /\
        single_tape_transform (fun tape => overrotate_rx tape epsilon) t st
        = Ok (tb, stb) /\
        single_tape_transform convert_cnots tb stb = Ok (t2, st2) /\
        read_tape (heap st1) t1 = Some v' /\
        read_tape (heap st2) t2 = Some v') /\
  (forall sqrt : num -> num,
      exists ta sta t1 st1 tb stb t2 st2 v',
        single_tape_transform convert_cnots t st = Ok (ta, sta) /\
        single_tape_transform (square_root_rx sqrt) ta sta = Ok (t1, st1) /\
        single_tape_transform (square_root_rx sqrt) t st = Ok (tb, stb) /\
        single_tape_transform convert_cnots tb stb = Ok (t2, st2) /\
        read_tape (heap st1) t1 = Some v' /\
        read_tape (heap st2) t2 = Some v').
Proof.
  intros Hv Hwf.
  pose proof (well_formed_rx_ready _ Hwf) as Hrx.
  pose proof (well_formed_cnot_ready _ Hwf) as Hcn.
  pose proof (convert_cnots_emits _ _ _ Hv Hcn) as Hea.
  destruct (rewritten_tape _ _ _ _ _ Hea st (extends_refl _))
    as (ta & sta & Ea & _ & _ & _ & Ra).
  split.
  - intros epsilon.
    pose proof (overrotate_rx_emits
                  _ _ _ epsilon Ra (cnot_to_cz_rx_ready _ Hrx)) as He1.
    destruct (rewritten_tape _ (fun tape => overrotate_rx tape epsilon)
                             _ _ _ He1 sta (extends_refl _))
      as (t1 & st1 & E1 & _ & _ & _ & R1).
    pose proof (overrotate_rx_emits _ _ _ epsilon Hv Hrx) as Heb.
    destruct (rewritten_tape _ (fun tape => overrotate_rx tape epsilon)
                             _ _ _ Heb st (extends_refl _))
      as (tb & stb & Eb & _ & _ & _ & Rb).
    pose proof (convert_cnots_emits
                  _ _ _ Rb (rx_rewritten_cnot_ready _ _ Hcn)) as He2.
    destruct (rewritten_tape _ _ _ _ _ He2 stb (extends_refl _))
      as (t2 & st2 & E2 & _ & _ & _ & R2).
    cbn [tv_operations tv_measurements] in R1, R2.
    unfold overrotated in R1, R2. rewrite rewritings_commute in R1.
    exists ta, sta, t1, st1, tb, stb, t2, st2. eexists.
    repeat (split; [eassumption|]). exact R2.
  - intros sqrt.
    pose proof (square_root_rx_emits
                  sqrt _ _ _ Ra (cnot_to_cz_rx_ready _ Hrx)) as He1.
    destruct (rewritten_tape _ (square_root_rx sqrt)
                             _ _ _ He1 sta (extends_refl _))
      as (t1 & st1 & E1 & _ & _ & _ & R1).
    pose proof (square_root_rx_emits sqrt _ _ _ Hv Hrx) as Heb.
    destruct (rewritten_tape _ (square_root_rx sqrt)
                             _ _ _ Heb st (extends_refl _))
      as (tb & stb & Eb & _ & _ & _ & Rb).
    pose proof (convert_cnots_emits
                  _ _ _ Rb (rx_rewritten_cnot_ready _ _ Hcn)) as He2.
    destruct (rewritten_tape _ _ _ _ _ He2 stb (extends_refl _))
      as (t2 & st2 & E2 & _ & _ & _ & R2).
    cbn [tv_operations tv_measurements] in R1, R2.
    rewrite rewritings_commute in R1.
    exists ta, sta, t1, st1, tb, stb, t2, st2. eexists.
    repeat (split; [eassumption|]). exact R2.
Qed.

(** On the tape of the transforms notebook, with the overrotation by
    0.1. *)
Lemma convert_cnots_commutes_with_rx_transforms_witness :
  exists ta sta t1 st1 tb stb t2 st2 v',
    single_tape_transform convert_cnots 4%nat Example.cnots_circuit
    = Ok (ta, sta) /\
    single_tape_transform
      (fun tape => overrotate_rx tape (Fin (1 # 10))) ta sta
    = Ok (t1, st1) /\
    single_tape_transform
      (fun tape => overrotate_rx tape (Fin (1 # 10)))
      4%nat Example.cnots_circuit
    = Ok (tb, stb) /\
    single_tape_transform convert_cnots tb stb = Ok (t2, st2) /\
    read_tape (heap st1) t1 = Some v' /\
    read_tape (heap st2) t2 = Some v'.
Proof.
  apply (convert_cnots_commutes_with_rx_transforms
           Example.cnots_circuit 4%nat
           (mkTapeValue [mkOp "CNOT" [0%nat; 1%nat] [];
                         mkOp "RX" [0%nat] [Fin (1 # 10)];
                         mkOp "CNOT" [1%nat; 2%nat] []]
                        [Example.expval])).
  - reflexivity.
  - repeat constructor.
Defined.

(** ** The subroutine of the comparison notebook *)

Lemma subroutine_emits h0 (theta : num) :
  emits h0 (subroutine theta)
        (map Operator [mkOp "RX" [0%nat] [theta];
                       mkOp "Hadamard" [0%nat] [];
                       mkOp "RY" [0%nat] [Fin (1 # 10)]]
         ++ map Measurement []).
Proof.
  unfold subroutine. cbn [map app].
  apply (emits_bind h0 (RX theta 0) _ [_] [_; _]);
    [apply emits_new_operator|]. intros _.
  apply (emits_bind h0 (Hadamard 0) _ [_] [_]);
    [apply emits_new_operator|]. intros _.
  apply emits_discard. apply emits_new_operator.
Qed.

(** X18.  Overrotating the subroutine is calling it with a larger angle:
    for every angle [theta] and every [epsilon], the overrotation by
    [epsilon] of the tape that [subroutine theta] records has the
    operations of the tape that [subroutine (theta + epsilon)] records:
    [RX (theta + epsilon)], [Hadamard] and [RY 0.1] on wire 0. *)
Theorem overrotate_rx_of_subroutine (st : state) (theta epsilon : num) :
  exists t0 st0 t1 st1 t2 st2 v',
    make_tape (subroutine theta) st = Ok (t0, st0) /\
    single_tape_transform (fun tape => overrotate_rx tape epsilon) t0 st0
    = Ok (t1, st1) /\
    make_tape (subroutine (theta + epsilon)%num) st = Ok (t2, st2) /\
    read_tape (heap st1) t1 = Some v' /\
    read_tape (heap st2) t2 = Some v' /\
    tv_operations v'
    = [mkOp "RX" [0%nat] [(theta + epsilon)%num];
       mkOp "Hadamard" [0%nat] [];
       mkOp "RY" [0%nat] [Fin (1 # 10)]].
Proof.
  change (make_tape (subroutine theta) st)
    with (single_tape_transform (fun _ : ref => subroutine theta) 0%nat st).
  change (make_tape (subroutine (theta + epsilon)%num) st)
    with (single_tape_transform
            (fun _ : ref => subroutine (theta + epsilon)%num) 0%nat st).
  destruct (rewritten_tape (heap st) (fun _ : ref => subroutine theta)
                           0%nat _ _ (subroutine_emits _ theta)
                           st (extends_refl _))
    as (t0 & st0 & E0 & _ & _ & _ & R0).
  assert (Hready : Forall rx_ready
                          [mkOp "RX" [0%nat] [theta];
                           mkOp "Hadamard" [0%nat] [];
                           mkOp "RY" [0%nat] [Fin (1 # 10)]]).
  { repeat (apply Forall_cons;
            [intros E; cbn in E |- *; first [discriminate E | split; lia]|]).
    apply Forall_nil. }
  pose proof (overrotate_rx_emits _ _ _ epsilon R0 Hready) as He.
  destruct (rewritten_tape _ (fun tape => overrotate_rx tape epsilon)
                           _ _ _ He st0 (extends_refl _))
    as (t1 & st1 & E1 & _ & _ & _ & R1).
  destruct (rewritten_tape (heap st)
                           (fun _ : ref => subroutine (theta + epsilon)%num)
                           0%nat _ _
                           (subroutine_emits _ (theta + epsilon)%num)
                           st (extends_refl _))
    as (t2 & st2 & E2 & _ & _ & _ & R2).
  exists t0, st0, t1, st1, t2, st2. eexists.
  split; [exact E0|]. split; [exact E1|]. split; [exact E2|].
  split; [exact R1|]. split; [exact R2|]. reflexivity.
Qed.

(** ** The Qiskit pass, on any DAG *)

Section QiskitRun.

Lemma length_assign {A} (l : list A) (i : nat) (a : A) :
  length (Qiskit.assign l i a) = length l.
Proof.
  revert i. induction l as [|x l IH]; intros [|i]; cbn; congruence.
Qed.

Lemma nth_error_assign_same {A} (l : list A) (i : nat) (a x : A) :
  nth_error l i = Some x -> nth_error (Qiskit.assign l i a) i = Some a.
Proof.
  revert i. induction l as [|y l IH]; intros [|i] H; cbn in *;
    try discriminate; [reflexivity | now apply IH].
Qed.

Lemma nth_error_assign_other {A} (l : list A) (i j : nat) (a : A) :
  i <> j -> nth_error (Qiskit.assign l i a) j = nth_error l j.
Proof.
  revert i j. induction l as [|y l IH]; intros [|i] [|j] H; cbn;
    try reflexivity; try congruence.
  apply IH. congruence.
Qed.

Lemma visit_overrotates (angle : num) (dag : Qiskit.DAGCircuit) :
  forall st : Qiskit.store,
    NoDup dag -> dag_ready st dag ->
    exists st',
      OverrotateRX.visit angle dag st = Ok st' /\
      length st' = length st /\
      (forall r, In r dag ->
                 nth_error st' r
                 = option_map (rx_overrotated angle) (nth_error st r)) /\
      (forall r, ~ In r dag -> nth_error st' r = nth_error st r).
Proof.
  induction dag as [|node rest IH]; intros st Hnd Hready.
  - exists st. split; [reflexivity|]. split; [reflexivity|].
    split; [intros r []|reflexivity].
  - inversion Hnd as [|? ? Hnot Hnd']; subst.
    inversion Hready as [|? ? (i & Hi & Hp) Hready']; subst.
    cbn [OverrotateRX.visit]. rewrite Hi.
    destruct (String.eqb (Qiskit.name i) "rx") eqn:E.
    + apply String.eqb_eq in E. specialize (Hp E).
      unfold OverrotateRX.add_to_first_param. rewrite Hi.
      destruct (Qiskit.params i) as [|p ps] eqn:Ep; [congruence|].
      cbn [obind].
      set (i' := Qiskit.mkInstruction (Qiskit.name i) ((p + angle)%num :: ps)
                                      (Qiskit.qargs i)).
      assert (Hi' : rx_overrotated angle i = i').
      { unfold rx_overrotated. rewrite E at 1. cbn [String.eqb Ascii.eqb].
        rewrite Ep. subst i'. now rewrite E. }
      assert (Hready1 : dag_ready (Qiskit.assign st node i') rest).
      { unfold dag_ready in *. rewrite Forall_forall in Hready' |- *.
        intros r Hr. destruct (Hready' r Hr) as (j & Hj & Hpj).
        exists j. split; [|exact Hpj].
        rewrite nth_error_assign_other; [exact Hj|].
        intros ->. contradiction. }
      destruct (IH _ Hnd' Hready1) as (st' & Ev & Hlen & Hin & Hout).
      exists st'. split; [exact Ev|].
      split; [now rewrite Hlen, length_assign|]. split.
      * intros r [<- | Hr].
        -- rewrite (Hout node Hnot), Hi. cbn [option_map]. rewrite Hi'.
           now apply nth_error_assign_same with i.
        -- rewrite (Hin r Hr). rewrite nth_error_assign_other; [reflexivity|].
           intros ->. contradiction.
      * intros r Hr. cbn [In] in Hr.
        rewrite Hout by tauto.
        apply nth_error_assign_other. tauto.
    + destruct (IH _ Hnd' Hready') as (st' & Ev & Hlen & Hin & Hout).
      exists st'. split; [exact Ev|]. split; [exact Hlen|]. split.
      * intros r [<- | Hr].
        -- rewrite (Hout node Hnot), Hi. cbn [option_map].
           unfold rx_overrotated. now rewrite E.
        -- now apply Hin.
      * intros r Hr. cbn [In] in Hr. apply Hout. tauto.
Qed.

End QiskitRun.

(** X19.  The Qiskit pass, on a DAG whose nodes have instructions of their
    own, an [rx] having its angle: it returns the DAG it was given; after
    it every [rx] of the DAG has its first parameter increased by the
    angle of the pass, once; every other instruction of the DAG, and every
    instruction outside it, is as it was; no instruction is added or
    removed. *)
Theorem overrotate_rx_pass_adds_angle_once
        (angle : num) (dag : Qiskit.DAGCircuit) (st : Qiskit.store) :
  NoDup dag -> dag_ready st dag ->
  exists st',
    OverrotateRX.run angle dag st = Ok (dag, st') /\
    length st' = length st /\
    (forall r, In r dag ->
               nth_error st' r
               = option_map (rx_overrotated angle) (nth_error st r)) /\
    (forall r, ~ In r dag -> nth_error st' r = nth_error st r).
Proof.
  intros Hnd Hready.
  destruct (visit_overrotates angle dag st Hnd Hready)
    as (st' & Ev & Hrest).
  exists st'. split; [|exact Hrest].
  unfold OverrotateRX.run. now rewrite Ev.
Qed.

Lemma example_dag_distinct : NoDup Example.dag.
Proof.
  unfold Example.dag.
  repeat (apply NoDup_cons; [cbn; intuition discriminate|]).
  apply NoDup_nil.
Qed.

Lemma example_dag_ready : dag_ready Example.subroutine Example.dag.
Proof.
  unfold dag_ready, Example.dag.
  repeat (apply Forall_cons;
          [eexists; split;
           [reflexivity
           | intros E; cbn in E |- *; first [discriminate E | discriminate]]|]).
  apply Forall_nil.
Qed.

(** The subroutine of the comparison notebook, [rx(0.3)], [h], [ry(0.1)],
    and the pass of angle 0.1. *)
Lemma overrotate_rx_pass_adds_angle_once_witness :
  exists st',
    OverrotateRX.run (Fin (1 # 10)) Example.dag Example.subroutine
    = Ok (Example.dag, st') /\
    length st' = 3%nat /\
    (forall r, In r Example.dag ->
               nth_error st' r
               = option_map (rx_overrotated (Fin (1 # 10)))
                            (nth_error Example.subroutine r)) /\
    (forall r, ~ In r Example.dag ->
               nth_error st' r = nth_error Example.subroutine r).
Proof.
  apply (overrotate_rx_pass_adds_angle_once
           (Fin (1 # 10)) Example.dag Example.subroutine
           example_dag_distinct example_dag_ready).
Defined.

(** ** The batch transform, on any list of scale factors *)

Section BatchFacts.

Local Open Scope Q_scope.

Lemma fold_count_odd_scale (k : nat) : fold_count (odd_scale k) = k.
Proof.
  apply fold_count_near; unfold odd_scale; rewrite <- Zlt_Qlt; lia.
Qed.

Lemma folded_gate_counts (h : list object) (v : tape_value)
      (adjs : list Operation) (tapes : list ref) (ks : list nat) :
  length adjs = length (tv_operations v) ->
  Forall2 (fun t' q =>
             read_tape h t'
             = Some (folded_tape adjs (fold_count q) v))
          tapes (map odd_scale ks) ->
  traverse (gate_count h) tapes
  = Some (map (fun k => ((2 * k + 1) * length (tv_operations v))%nat) ks).
Proof.
  intros Hlen. revert tapes. induction ks as [|k ks IH]; intros tapes H;
    inversion H as [|t' q ts qs R H']; subst; [reflexivity|].
  cbn [traverse map]. rewrite (IH _ H'). unfold gate_count. rewrite R.
  cbn [folded_tape tv_operations].
  rewrite length_app, (length_folded _ _ _ Hlen), fold_count_odd_scale.
  replace (length (tv_operations v) + 2 * k * length (tv_operations v))%nat
    with ((2 * k + 1) * length (tv_operations v))%nat by lia.
  reflexivity.
Qed.

Lemma linear_in_gate_count (b c : Q) (n : nat) (ks : list nat) :
  on_line (c * inject_Z (Z.of_nat n)) b (map odd_scale ks)
          (map (fun m => b + c * inject_Z (Z.of_nat m))
               (map (fun k => ((2 * k + 1) * n)%nat) ks)).
Proof.
  unfold on_line. induction ks as [|k ks IH]; cbn [map]; constructor;
    [|exact IH].
  unfold odd_scale.
  replace (Z.of_nat ((2 * k + 1) * n))
    with ((2 * Z.of_nat k + 1) * Z.of_nat n)%Z by lia.
  rewrite inject_Z_mult. ring.
Qed.

End BatchFacts.

(** X20.  On a tape whose operations all have an adjoint, for every list
    of finite scale factors [zne] returns one tape for each scale factor,
    in the order of the list, the tape for a scale factor being the input
    folded by it; every tape is a new object, and the recording context
    [zne] was called in is as it was.  The function it returns beside the
    tapes is [fit_zne] on these scale factors; for the empty list there is
    no tape, and this function raises a [ValueError] on every list of
    results. *)
Theorem zne_one_tape_per_scale_factor
        (adjoint : Operation -> option Operation) (st : state) (t : ref)
        (v : tape_value) (adjs : list Operation) (qs : list Q) :
  read_tape (heap st) t = Some v ->
  traverse adjoint (tv_operations v) = Some adjs ->
  exists tapes st',
    zne t (unitary_folding adjoint) (fins qs) st
    = Ok ((tapes, fit_zne (fins qs)), st') /\
    queue st' = queue st /\
    length tapes = length qs /\
    Forall (fun t' => length (heap st) <= t')%nat tapes /\
    Forall2 (fun t' q =>
               read_tape (heap st') t'
               = Some (folded_tape adjs (fold_count q) v))
            tapes qs /\
    (qs = [] -> forall es, fit_zne (fins qs) es = Raise ValueError).
Proof.
  intros Hv Ha.
  destruct (zne_folding adjoint qs adjs st t v Hv Ha)
    as (tapes & st' & E & _ & Q & F & R).
  exists tapes, st'.
  split; [exact E|]. split; [exact Q|].
  split; [exact (Forall2_length R)|].
  split; [exact F|]. split; [exact R|].
  intros -> es. reflexivity.
Qed.

(** The five scale factors of the notebook, on the tape
    [[RX(0.3), CNOT]]. *)
Lemma zne_one_tape_per_scale_factor_witness :
  exists tapes st',
    zne Example.tape (unitary_folding Example.adjoint)
        (fins [1; 3; 5; 7; 9]) Example.circuit
    = Ok ((tapes, fit_zne (fins [1; 3; 5; 7; 9])), st') /\
    queue st' = [] /\
    length tapes = 5%nat /\
    Forall (fun t' => 4 <= t')%nat tapes /\
    Forall2 (fun t' q =>
               read_tape (heap st') t'
               = Some (folded_tape Example.adjoints (fold_count q)
                                   Example.value))
            tapes [1; 3; 5; 7; 9] /\
    ([1; 3; 5; 7; 9] = [] ->
     forall es, fit_zne (fins [1; 3; 5; 7; 9]) es = Raise ValueError).
Proof.
  apply (zne_one_tape_per_scale_factor
           Example.adjoint Example.circuit Example.tape Example.value
           Example.adjoints [1; 3; 5; 7; 9]);
    reflexivity.
Defined.

(** X21.  Zero-noise extrapolation with unitary folding is exact for noise
    that is linear in the length of the circuit: on a tape whose
    operations all have an adjoint, with the odd scale factors [2 k + 1],
    not all the same, and results that are [b] plus [c] times the number
    of operations of the tape each one comes from, the function [zne]
    returns maps the results to [b], the value for a circuit of no
    operation (the sums of the fit computed exactly). *)
Theorem zne_extrapolates_linear_noise
        (adjoint : Operation -> option Operation) (st : state) (t : ref)
        (v : tape_value) (adjs : list Operation) (ks : list nat) (b c : Q) :
  read_tape (heap st) t = Some v ->
  traverse adjoint (tv_operations v) = Some adjs ->
  ~ all_identical (map odd_scale ks) ->
  exists tapes processing_fn st' counts q,
    zne t (unitary_folding adjoint) (fins (map odd_scale ks)) st
    = Ok ((tapes, processing_fn), st') /\
    traverse (gate_count (heap st')) tapes = Some counts /\
    processing_fn
      (fins (map (fun n => b + c * inject_Z (Z.of_nat n)) counts))
    = Ok (Fin q) /\
    q == b.
Proof.
  intros Hv Ha Hnot.
  destruct (zne_folding adjoint (map odd_scale ks) adjs st t v Hv Ha)
    as (tapes & st' & E & _ & _ & _ & R).
  pose proof (linear_in_gate_count b c (length (tv_operations v)) ks)
    as Hline.
  exists tapes, (fit_zne (fins (map odd_scale ks))), st'.
  eexists. eexists.
  split; [exact E|].
  split; [exact (folded_gate_counts _ _ _ _ _ (traverse_length _ _ _ Ha) R)|].
  split.
  - apply fit_zne_regular.
    + now apply not_identical_nonempty.
    + exact (on_line_length _ _ _ _ Hline).
    + apply denominator_nonzero;
        [exact (on_line_length _ _ _ _ Hline) | exact Hnot].
  - exact (ols_intercept_on_line _ _ _ _ Hline Hnot).
Qed.

Lemma not_identical_odd_012 : ~ all_identical (map odd_scale [0; 1; 2]%nat).
Proof.
  intros H.
  specialize (H (odd_scale 0) (odd_scale 1) (or_introl eq_refl)
                (or_intror (or_introl eq_refl))).
  discriminate H.
Qed.

(** The scale factors 1, 3 and 5 on the tape [[RX(0.3), CNOT]]: the
    results [1/2 + n/100] for the tapes of 2, 6 and 10 operations. *)
Lemma zne_extrapolates_linear_noise_witness :
  exists tapes processing_fn st' counts q,
    zne Example.tape (unitary_folding Example.adjoint)
        (fins (map odd_scale [0; 1; 2]%nat)) Example.circuit
    = Ok ((tapes, processing_fn), st') /\
    traverse (gate_count (heap st')) tapes = Some counts /\
    processing_fn
      (fins (map (fun n => (1 # 2) + (1 # 100) * inject_Z (Z.of_nat n))
                 counts))
    = Ok (Fin q) /\
    q == 1 # 2.
Proof.
  apply (zne_extrapolates_linear_noise
           Example.adjoint Example.circuit Example.tape Example.value
           Example.adjoints [0; 1; 2]%nat (1 # 2) (1 # 100)
           eq_refl eq_refl not_identical_odd_012).
Defined.
